(** * UltraDownloader (get.py): the segmented download engine

    A shallow embedding of the segmented engine of [get.py]: the range
    planner and the resume decision of [download_segmented], the segment
    fetcher [fetch_range], and the per-segment completion block of [worker];
    and of what surrounds it: the single stream fallback [download_single],
    the probes and the choice of mode of [download_url], [meta_path] and the
    unit table of [human_to_bytes].

    Python integers are [Z].  Byte strings are lists of [Byte.byte].  The
    output file is a list of bytes addressed by absolute offset.  Network
    input is a [server]: a function from the request (its ordinal within one
    [fetch_range] call, and the [Range: bytes=pos-end] it carries) to what
    [session.get] and the body iterator deliver.  Loops that the source
    writes as [while] take a fuel argument and report [None] / [OutOfFuel]
    when it runs out. *)

From stdpp Require Import base numbers option list sets gmap sorting strings.
From Stdlib Require Import ZArith Lia.
From Stdlib Require Import Init.Byte.

Local Open Scope Z_scope.

(* ================================================================== *)
(** * Part I: the model                                                 *)
(* ================================================================== *)

Abbreviation bytes := (list byte).

(** [len(x)] of a Python sequence. *)
Definition py_len {A} (l : list A) : Z := Z.of_nat (length l).

(** ** Range planner ([download_segmented], lines 177-182)

<<
    ranges = []
    pos = 0
    while pos < size:
        end = min(size - 1, pos + chunk_size - 1)
        ranges.append((pos, end))
        pos = end + 1
>>  *)

Definition segment : Type := Z * Z.

Fixpoint plan_loop (fuel : nat) (size chunk_size pos : Z)
    (ranges : list segment) : option (list segment) :=
  if decide (pos < size) then
    match fuel with
    | O => None
    | S fuel' =>
        let end_ := Z.min (size - 1) (pos + chunk_size - 1) in
        plan_loop fuel' size chunk_size (end_ + 1) (ranges ++ [(pos, end_)])
    end
  else Some ranges.

Definition plan_ranges (fuel : nat) (size chunk_size : Z) : option (list segment) :=
  plan_loop fuel size chunk_size 0 [].

(** ** The output file

    [f.seek(pos); f.write(data)] on a file opened ["r+b"]: bytes are
    overwritten in place; a write that starts past the end of the file first
    fills the hole with zero bytes; an empty write changes nothing.  The
    engine only seeks to offsets at or after a segment start, which the
    planner makes non-negative. *)

Definition write_at (f : bytes) (pos : Z) (data : bytes) : bytes :=
  match data with
  | [] => f
  | _ =>
      let p := Z.to_nat pos in
      take p f ++ replicate (p - length f)%nat x00 ++ data
        ++ drop (p + length data)%nat f
  end.

(** The bytes of [f] at offsets [lo .. hi] inclusive. *)
Definition slice (f : bytes) (lo hi : Z) : bytes :=
  take (Z.to_nat (hi - lo + 1)) (drop (Z.to_nat lo) f).

(** ** What the network delivers to [fetch_range]

    [status] is [r.status].  [cr_start] is [int(m.group(1))] when the
    regular expression of line 138 matches the [Content-Range] header (a
    header of the form "bytes FIRST-LAST/TOTAL"), and [None] when it does
    not or the header is missing.  [chunks] are the byte strings that
    [r.content.iter_chunked(1 << 15)] yields (aiohttp ends the iteration
    rather than yield an empty one; the model still takes the branch the
    code has for it), and [ending] says how the iteration stops once they
    are exhausted: at end of body, by a timeout ([asyncio.TimeoutError] /
    [aiohttp.ServerTimeoutError]), or by any other exception. *)

Inductive body_end := BodyEOF | BodyTimeout | BodyError.

Record response := Response {
  status : Z;
  cr_start : option Z;
  chunks : list bytes;
  ending : body_end;
}.

(** The outcome of [session.get(url, headers=...)] itself: a timeout, another
    exception, or a response. *)
Inductive reply :=
  | ReplyTimeout
  | ReplyError
  | Reply (r : response).

(** A server answers the [n]-th request of one [fetch_range] call, which
    asks for [Range: bytes=pos-end] (the [If-Range] validator sent along is
    the same for every request of a download). *)
Definition server : Type := nat -> Z -> Z -> reply.

(** ** Exceptions and outcomes *)

Inductive exn :=
  | TimeoutError                      (* the timeout re-raised by [raise] at line 166 *)
  | ClientError                       (* raise_for_status, or any exception not caught at line 162 *)
  | RuntimeError (got need : Z)       (* "range idx incomplete - got .. of .. bytes" *)
  | IndexError.                       (* ranges[i] out of range *)

Inductive outcome :=
  | Returned
  | Raised (e : exn)
  | OutOfFuel.

(** ** Segment fetcher ([fetch_range], lines 116-174)

    The state holds the locals [pos], [attempt] and [backoff], the output
    file, the shared counter [prog.done], and three observations used to
    state properties: every [f.write] as (offset, data), every
    [asyncio.sleep] delay, and the number of requests issued.  [backoff]
    only takes the values 1.0, 2.0, 4.0, 8.0 and 10.0, kept as integers. *)

Record fstate := FState {
  st_pos : Z;
  st_attempt : Z;
  st_backoff : Z;
  st_file : bytes;
  st_done : Z;
  st_writes : list (Z * bytes);
  st_sleeps : list Z;
  st_requests : nat;
}.

Definition set_pos (p : Z) (st : fstate) : fstate :=
  FState p (st_attempt st) (st_backoff st) (st_file st) (st_done st)
         (st_writes st) (st_sleeps st) (st_requests st).

Definition count_request (st : fstate) : fstate :=
  FState (st_pos st) (st_attempt st) (st_backoff st) (st_file st) (st_done st)
         (st_writes st) (st_sleeps st) (S (st_requests st)).

(** Lines 152-155: [f.seek(pos); f.write(chunk[:want]); pos += want;
    await prog.add(want)]. *)
Definition write_chunk (chunk : bytes) (want : Z) (st : fstate) : fstate :=
  let data := take (Z.to_nat want) chunk in
  FState (st_pos st + want) (st_attempt st) (st_backoff st)
         (write_at (st_file st) (st_pos st) data) (st_done st + want)
         (st_writes st ++ [(st_pos st, data)]) (st_sleeps st) (st_requests st).

(** Lines 159-160: [attempt = 0; backoff = 1.0]. *)
Definition reset_retry (st : fstate) : fstate :=
  FState (st_pos st) 0 1 (st_file st) (st_done st)
         (st_writes st) (st_sleeps st) (st_requests st).

(** Lines 146-156, the [async for chunk in ...] loop.  The boolean tells
    whether the loop was left by [break] (the iterator is then not advanced
    again, so the body's [ending] is never observed). *)
Fixpoint iter_chunks (end_ : Z) (cs : list bytes) (st : fstate) : fstate * bool :=
  match cs with
  | [] => (st, false)
  | chunk :: cs' =>
      if decide (st_pos st > end_) then (st, true)
      else
        let want := Z.min (py_len chunk) (end_ - st_pos st + 1) in
        if decide (want <= 0) then (st, true)
        else iter_chunks end_ cs' (write_chunk chunk want st)
  end.

(** One pass through the body of [while pos <= end]. *)
Inductive step :=
  | Next (st : fstate)               (* back to the loop test *)
  | Break (st : fstate)              (* [break] out of the while loop *)
  | Stop (e : exn) (st : fstate).    (* an exception leaves [fetch_range] *)

(** Lines 162-168, the [except] clause for timeouts. *)
Definition on_timeout (max_retries : Z) (st : fstate) : step :=
  let attempt := st_attempt st + 1 in
  if decide (attempt > max_retries) then
    Stop TimeoutError
      (FState (st_pos st) attempt (st_backoff st) (st_file st) (st_done st)
              (st_writes st) (st_sleeps st) (st_requests st))
  else
    Next
      (FState (st_pos st) attempt (Z.min (st_backoff st * 2) 10) (st_file st)
              (st_done st) (st_writes st) (st_sleeps st ++ [st_backoff st])
              (st_requests st)).

(** Lines 136-143: on a 206 whose [Content-Range] parses, a start ahead of
    the cursor moves the cursor. *)
Definition check_content_range (r : response) (st : fstate) : fstate :=
  if decide (status r = 206) then
    match cr_start r with
    | Some srv_start =>
        if decide (srv_start > st_pos st) then set_pos srv_start st else st
    | None => st
    end
  else st.

(** [r.raise_for_status()] raises for a status of 400 and above. *)
Definition raise_for_status (r : response) : bool :=
  bool_decide (400 <= status r).

Definition fetch_step (srv : server) (end_ max_retries : Z) (st : fstate) : step :=
  let st' := count_request st in
  match srv (st_requests st) (st_pos st) end_ with
  | ReplyTimeout => on_timeout max_retries st'
  | ReplyError => Stop ClientError st'
  | Reply r =>
      if bool_decide (status r ≠ 200 ∧ status r ≠ 206 ∧ status r ≠ 416)
         && raise_for_status r
      then Stop ClientError st'
      else if decide (status r = 416) then Break st'
      else
        let '(st2, broke) := iter_chunks end_ (chunks r) (check_content_range r st') in
        if broke then Next (reset_retry st2)
        else
          match ending r with
          | BodyEOF => Next (reset_retry st2)
          | BodyTimeout => on_timeout max_retries st2
          | BodyError => Stop ClientError st2
          end
  end.

(** The [while pos <= end] loop.  [None] as the exception slot means the
    loop was left normally (its test failed, or [break]). *)
Fixpoint fetch_loop (fuel : nat) (srv : server) (end_ max_retries : Z)
    (st : fstate) : option (option exn) * fstate :=
  if decide (st_pos st <= end_) then
    match fuel with
    | O => (None, st)
    | S fuel' =>
        match fetch_step srv end_ max_retries st with
        | Next st' => fetch_loop fuel' srv end_ max_retries st'
        | Break st' => (Some None, st')
        | Stop e st' => (Some (Some e), st')
        end
    end
  else (Some None, st).

Definition fetch_init (start : Z) (file : bytes) (done : Z) : fstate :=
  FState start 0 1 file done [] [] 0.

(** Lines 171-174, the final guard, applied to the way the loop ended. *)
Definition final_guard (start end_ : Z) (res : option (option exn) * fstate)
    : outcome * fstate :=
  match res with
  | (None, st) => (OutOfFuel, st)
  | (Some (Some e), st) => (Raised e, st)
  | (Some None, st) =>
      if decide (st_pos st <= end_) then
        (Raised (RuntimeError (st_pos st - start) (end_ - start + 1)), st)
      else (Returned, st)
  end.

Definition fetch_range (fuel : nat) (srv : server) (start end_ max_retries : Z)
    (file : bytes) (done : Z) : outcome * fstate :=
  final_guard start end_
    (fetch_loop fuel srv end_ max_retries (fetch_init start file done)).

(** ** Resume metadata ([load_meta], [save_meta], lines 56-71 and 185-190)

    The JSON object of the side file, with the keys the worker writes
    (lines 223-232).  A field is [None] when the key is missing or [null]:
    [dict.get] gives [None] for both; a dict whose keys are all [null] is
    thereby read as the empty dict, which no decision below tells apart for
    a non-empty plan.  A [done] entry is a list of integers, as
    [sorted(finished)] writes it.  A side file that is missing, or that
    [json.load] rejects, is [None] as a whole ([load_meta] returns [None]). *)

Record metadata := Metadata {
  m_url : option string;
  m_size : option Z;
  m_chunk_size : option Z;
  m_etag : option string;
  m_last_modified : option string;
  m_done : option (list Z);
}.

Record validators := Validators {
  v_etag : option string;
  v_last_modified : option string;
}.

#[global] Instance metadata_eq_dec : EqDecision metadata.
Proof. solve_decision. Defined.

(** The empty dict [{}]. *)
Definition empty_meta : metadata := Metadata None None None None None None.

(** Truth value of a loaded [meta]: [None] and the empty dict are false. *)
Definition truthy (meta : option metadata) : bool :=
  match meta with
  | None => false
  | Some md => bool_decide (md ≠ empty_meta)
  end.

(** [md.get("done", [])]. *)
Definition get_done (md : metadata) : list Z := default [] (m_done md).

(** Lines 186-190: the set [done_idx] of segment indices taken over from the
    side file. *)
Definition trusted_done (meta : option metadata) (url : string) (size : Z)
    (v : validators) : gset Z :=
  match meta with
  | Some md =>
      if truthy meta && bool_decide (m_size md = Some size)
         && bool_decide (m_url md = Some url)
      then
        if bool_decide (m_etag md = v_etag v)
           || bool_decide (m_last_modified md = v_last_modified v)
        then list_to_set (get_done md)
        else ∅
      else ∅
  | None => ∅
  end.

(** Lines 222-233, the completion block of [worker], in its three parts.
    Line 222, [md = load_meta(out_path) or {}]: *)
Definition load_or_empty (meta : option metadata) : metadata :=
  if truthy meta then default empty_meta meta else empty_meta.

(** Lines 223-232, [md.update({...})] and [md["done"] = sorted(finished)]
    with [finished = set(md.get("done", [])) | {i}]: *)
Definition with_done (url : string) (size chunk_size : Z) (v : validators)
    (i : Z) (md : metadata) : metadata :=
  let finished : gset Z := list_to_set (get_done md) ∪ {[ i ]} in
  Metadata (Some url) (Some size) (Some chunk_size) (v_etag v)
           (v_last_modified v) (Some (merge_sort Z.le (elements finished))).

(** The whole block, run without interruption; its result is the dict that
    line 233 hands to [save_meta]. *)
Definition mark_done (url : string) (size chunk_size : Z) (v : validators)
    (i : Z) (meta : option metadata) : metadata :=
  with_done url size chunk_size v i (load_or_empty meta).

(** ** Segmented engine ([download_segmented], lines 176-252) *)

(** [ranges[i]] with Python's indexing: negative indices count from the
    end, anything else out of range raises [IndexError] ([None]). *)
Definition py_index {A} (l : list A) (i : Z) : option A :=
  if decide (0 <= i) then l !! Z.to_nat i
  else if decide (- py_len l <= i) then l !! Z.to_nat (py_len l + i)
  else None.

(** Lines 203-208: the bytes already accounted for by [done_idx]. *)
Definition already_done (ranges : list segment) (done_idx : gset Z) : option Z :=
  foldr (fun i acc =>
           match acc, py_index ranges i with
           | Some already, Some (s, e) => Some (already + (e - s + 1))
           | _, _ => None
           end)
        (Some 0) (elements done_idx).

(** What one download works on: the output file, the side file and
    [prog.done]. *)
Record dstate := DState {
  d_file : bytes;
  d_meta : option metadata;
  d_done : Z;
}.

(** [load_meta(out_path)] and [save_meta(out_path, md)], lines 59-71. *)
Definition load_meta (st : dstate) : option metadata := d_meta st.

Definition save_meta (md : metadata) (st : dstate) : dstate :=
  DState (d_file st) (Some md) (d_done st).

Section engine.
(** The arguments of [download_segmented] that stay fixed, the server
    answering the requests of segment [i], and the fuel given to every
    [fetch_range] call. *)
Variable fuel : nat.
Variable srv : Z -> server.
Variable url : string.
Variable size chunk_size max_retries : Z.
Variable v : validators.

(** Lines 217-236. *)
Definition worker (i s e : Z) (st : dstate) : outcome * dstate :=
  match fetch_range fuel (srv i) s e max_retries (d_file st) (d_done st) with
  | (Returned, fst) =>
      let st1 := DState (st_file fst) (d_meta st) (st_done fst) in
      (Returned,
       save_meta (mark_done url size chunk_size v i (load_meta st1)) st1)
  | (o, fst) => (o, DState (st_file fst) (d_meta st) (st_done fst))
  end.

(** The tasks awaited by [asyncio.gather], run one after the other in the
    order given; the first exception ends the run. *)
Fixpoint run_workers (tasks : list (Z * segment)) (st : dstate)
    : outcome * dstate :=
  match tasks with
  | [] => (Returned, st)
  | (i, (s, e)) :: tasks' =>
      match worker i s e st with
      | (Returned, st') => run_workers tasks' st'
      | other => other
      end
  end.

(** Lines 238-241: [enumerate(ranges)] without the indices in [done_idx]. *)
Definition enumerate (ranges : list segment) : list (Z * segment) :=
  imap (fun i r => (Z.of_nat i, r)) ranges.

Definition tasks_to_launch (ranges : list segment) (done_idx : gset Z)
    : list (Z * segment) :=
  filter (fun t => t.1 ∉ done_idx) (enumerate ranges).

(** Lines 193-195: the file is created with [size] zero bytes unless it
    exists. *)
Definition preallocate (file : option bytes) : bytes :=
  match file with
  | Some f => f
  | None => replicate (Z.to_nat size) x00
  end.

(** Lines 247-252. *)
Definition cleanup (ranges : list segment) (meta : option metadata)
    : option metadata :=
  match meta with
  | Some md =>
      if truthy meta && bool_decide (py_len (get_done md) = py_len ranges)
      then None else meta
  | None => None
  end.

Record dresult := DResult {
  r_outcome : outcome;
  r_file : option bytes;
  r_meta : option metadata;
  r_progress : Z;
  r_launched : list Z;
}.

Definition download_segmented (plan_fuel : nat) (file : option bytes)
    (meta : option metadata) : dresult :=
  match plan_ranges plan_fuel size chunk_size with
  | None => DResult OutOfFuel file meta 0 []
  | Some ranges =>
      let done_idx := trusted_done meta url size v in
      let f := preallocate file in
      match already_done ranges done_idx with
      | None => DResult (Raised IndexError) (Some f) meta 0 []
      | Some already =>
          let tasks := tasks_to_launch ranges done_idx in
          match run_workers tasks (DState f meta already) with
          | (Returned, st) =>
              DResult Returned (Some (d_file st)) (cleanup ranges (d_meta st))
                      (d_done st) (tasks.*1)
          | (o, st) =>
              DResult o (Some (d_file st)) (d_meta st) (d_done st) (tasks.*1)
          end
      end
  end.

(** ** Concurrent completions

    The tasks of one download run on one asyncio event loop: the task that
    holds the loop runs until it awaits, and only then can another task be
    resumed.  [fetch_range] awaits (the request, each chunk, [prog.add],
    [asyncio.sleep]) and touches the output file and [prog.done] only.  The
    completion block after it (lines 222-233) contains no [await]: once
    [fetch_range] has returned, the task loads, updates and saves without
    giving up the loop.

    A task is at one of these points: *)
Inductive task_pc :=
  | Fetching                   (* inside [fetch_range], or waiting for [sem] *)
  | AtLoad                     (* [fetch_range] returned; line 222 is next *)
  | Loaded (md : metadata)     (* after line 222, holding the loaded dict *)
  | Updated (md : metadata)    (* after line 232; [save_meta] is next *)
  | Finished                   (* saved; the task is over *)
  | Failed.                    (* an exception left the task *)

(** The output file, the side file, where each task is, and the task that
    holds the event loop ([None] while every task is suspended). *)
Record cstate := CState {
  c_file : bytes;
  c_meta : option metadata;
  c_pc : Z -> task_pc;
  c_running : option Z;
}.

Definition set_pc (i : Z) (pc : task_pc) (pcs : Z -> task_pc) : Z -> task_pc :=
  fun j => if decide (j = i) then pc else pcs j.

Inductive task_step : cstate -> cstate -> Prop :=
  | task_resume i st :
      (* the loop resumes a suspended task *)
      c_running st = None -> c_pc st i = Fetching ->
      task_step st (CState (c_file st) (c_meta st) (c_pc st) (Some i))
  | task_await i file' st :
      (* [fetch_range] runs on, writing or not, up to its next [await] *)
      c_running st = Some i -> c_pc st i = Fetching ->
      task_step st (CState file' (c_meta st) (c_pc st) None)
  | task_raise i st :
      c_running st = Some i -> c_pc st i = Fetching ->
      task_step st
        (CState (c_file st) (c_meta st) (set_pc i Failed (c_pc st)) None)
  | task_return i st :
      (* [fetch_range] returns; the task keeps the loop *)
      c_running st = Some i -> c_pc st i = Fetching ->
      task_step st
        (CState (c_file st) (c_meta st) (set_pc i AtLoad (c_pc st)) (Some i))
  | task_load i st :
      c_running st = Some i -> c_pc st i = AtLoad ->
      task_step st
        (CState (c_file st) (c_meta st)
                (set_pc i (Loaded (load_or_empty (c_meta st))) (c_pc st))
                (Some i))
  | task_update i md st :
      c_running st = Some i -> c_pc st i = Loaded md ->
      task_step st
        (CState (c_file st) (c_meta st)
                (set_pc i (Updated (with_done url size chunk_size v i md))
                        (c_pc st))
                (Some i))
  | task_save i md st :
      (* [save_meta]; the task ends and frees the loop *)
      c_running st = Some i -> c_pc st i = Updated md ->
      task_step st
        (CState (c_file st) (Some md) (set_pc i Finished (c_pc st)) None).

(** A task between its [load_meta] and its [save_meta]. *)
Definition in_block (pc : task_pc) : Prop :=
  match pc with
  | AtLoad | Loaded _ | Updated _ => True
  | _ => False
  end.

(** The indices persisted as done in the side file. *)
Definition persisted_done (meta : option metadata) : gset Z :=
  match meta with
  | Some md => list_to_set (get_done md)
  | None => ∅
  end.
End engine.

(** ** Side file name ([meta_path], lines 56-57) *)

Definition meta_path (out_path : string) : string := out_path +:+ ".meta.json".

(** ** Size units ([human_to_bytes], lines 21-37)

    The dict [multipliers], and what [multipliers.get(unit)] finds in it. *)

Definition multipliers : gmap string Z :=
  list_to_map
    [("", 1); ("b", 1);
     ("k", 1024); ("kb", 1024); ("kib", 1024);
     ("m", 1024 ^ 2); ("mb", 1024 ^ 2); ("mib", 1024 ^ 2);
     ("g", 1024 ^ 3); ("gb", 1024 ^ 3); ("gib", 1024 ^ 3);
     ("t", 1024 ^ 4); ("tb", 1024 ^ 4); ("tib", 1024 ^ 4)].

Definition unit_multiplier (unit : string) : option Z := multipliers !! unit.

(** The lower-cased strings that group 2 of the regular expression of line
    21 can capture from ASCII input: an optional letter of [kmgt], an
    optional [i], an optional [b], in either case. *)
Definition unit_candidates : list string :=
  p ← [""; "k"; "m"; "g"; "t"];
  i ← [""; "i"];
  b ← [""; "b"];
  [p +:+ i +:+ b].

(** ** Single stream fallback ([download_single], lines 256-280)

    One request per pass of [while True], answered by the [n]-th [reply].
    Every exception is caught at line 275.  [ReplyError] stands for any
    that occurs before the file is opened: a connection failure, or a
    Content-Length that [int] rejects at line 267; a [Reply] is thus a
    response whose Content-Length is absent or accepted.  The file is
    [None] until it exists. *)

Record sstate := SState {
  ss_attempt : Z;
  ss_backoff : Z;
  ss_file : option bytes;
  ss_sleeps : list Z;
  ss_requests : nat;
}.

(** Lines 269-273: [open(out_path, "wb")] empties or creates the file, and
    every [f.write(chunk)] appends to it. *)
Definition write_stream (cs : list bytes) : bytes :=
  foldl (fun f chunk => f ++ chunk) [] cs.

(** Lines 261-274, the [try] body: what it leaves in the file, and the
    exception that ended it, if any. *)
Definition single_try (rp : reply) (file : option bytes)
    : option bytes * option exn :=
  match rp with
  | ReplyTimeout => (file, Some TimeoutError)
  | ReplyError => (file, Some ClientError)
  | Reply r =>
      if raise_for_status r then (file, Some ClientError)
      else
        let f := Some (write_stream (chunks r)) in
        match ending r with
        | BodyEOF => (f, None)
        | BodyTimeout => (f, Some TimeoutError)
        | BodyError => (f, Some ClientError)
        end
  end.

Fixpoint single_loop (fuel : nat) (srv : nat -> reply) (max_retries : Z)
    (st : sstate) : outcome * sstate :=
  match fuel with
  | O => (OutOfFuel, st)
  | S fuel' =>
      let '(file, err) := single_try (srv (ss_requests st)) (ss_file st) in
      match err with
      | None =>
          (Returned,
           SState (ss_attempt st) (ss_backoff st) file (ss_sleeps st)
                  (S (ss_requests st)))
      | Some ex =>
          let attempt := ss_attempt st + 1 in
          if decide (attempt > max_retries) then
            (Raised ex,
             SState attempt (ss_backoff st) file (ss_sleeps st)
                    (S (ss_requests st)))
          else
            single_loop fuel' srv max_retries
              (SState attempt (Z.min (ss_backoff st * 2) 10) file
                      (ss_sleeps st ++ [ss_backoff st]) (S (ss_requests st)))
      end
  end.

Definition download_single (fuel : nat) (srv : nat -> reply) (max_retries : Z)
    (file : option bytes) : outcome * sstate :=
  single_loop fuel srv max_retries (SState 0 1 file [] 0).

(** ** Probing and the choice of mode ([head], [probe_ranges],
    [download_url], lines 75-89 and 349-389)

    What the three requests of [download_url] bring back: the HEAD request
    (status, and the Content-Length, ETag and Last-Modified headers), the
    one-byte range probe (status), and the plain GET made when the size is
    still unknown (status and Content-Length). *)

Inductive head_obs :=
  | HeadRaises
  | HeadReply (st : Z) (content_length etag last_modified : option string).

Inductive probe_obs :=
  | ProbeRaises
  | ProbeReply (st : Z).

Inductive get_obs :=
  | GetRaises
  | GetReply (st : Z) (content_length : option string).

(** The local [size]: [None], an integer, or the header string that [int]
    rejected (line 366 raises after line 363 has bound it). *)
Inductive py_size :=
  | SizeNone
  | SizeInt (n : Z)
  | SizeStr (s : string).

Inductive url_exn :=
  | UrlClientError     (* the GET of line 378 fails, or its status is 400 or above *)
  | UrlValueError      (* [int] rejects the Content-Length of line 380 *)
  | UrlTypeError.      (* line 383 compares a string with [chunk_size] *)

Inductive mode :=
  | Segmented (size : Z) (v : validators)
  | SingleStream
  | UrlRaises (e : url_exn).

(** [probe_ranges], lines 80-89; [None] when it raises. *)
Definition probe_ranges (p : probe_obs) : option bool :=
  match p with
  | ProbeRaises => None
  | ProbeReply st =>
      if decide (st = 206) then Some true
      else if decide (st = 200) then Some false
      else if bool_decide (400 <= st) then None
      else Some false
  end.

Section probing.
(** Python's [int] on a header string; [None] when it raises. *)
Variable py_int : string -> option Z.

(** Lines 356-368: [size] and the validators after the HEAD request. *)
Definition head_probe (h : head_obs) : py_size * validators :=
  match h with
  | HeadRaises => (SizeNone, Validators None None)
  | HeadReply st cl etag last_mod =>
      if bool_decide (400 <= st) then (SizeNone, Validators None None)
      else
        match cl with
        | None => (SizeNone, Validators etag last_mod)
        | Some s =>
            match py_int s with
            | Some n => (SizeInt n, Validators etag last_mod)
            | None => (SizeStr s, Validators etag last_mod)
            end
        end
  end.

(** Lines 370-374: a probe that raises counts as no range support. *)
Definition supports_ranges (p : probe_obs) : bool :=
  default false (probe_ranges p).

(** Lines 378-380: [int(r.headers.get("Content-Length") or 0)]. *)
Definition sized_get (g : get_obs) : url_exn + Z :=
  match g with
  | GetRaises => inl UrlClientError
  | GetReply st cl =>
      if bool_decide (400 <= st) then inl UrlClientError
      else
        match cl with
        | None => inr 0
        | Some s =>
            if decide (s = "") then inr 0
            else match py_int s with
                 | Some n => inr n
                 | None => inl UrlValueError
                 end
        end
  end.

(** Lines 383-389: [if size and supports and size > chunk_size]. *)
Definition choose_mode (size : py_size) (supports : bool) (chunk_size : Z)
    (v : validators) : mode :=
  match size with
  | SizeNone => SingleStream
  | SizeInt n =>
      if bool_decide (n ≠ 0) && supports && bool_decide (n > chunk_size)
      then Segmented n v else SingleStream
  | SizeStr s =>
      if bool_decide (s ≠ "") && supports then UrlRaises UrlTypeError
      else SingleStream
  end.

(** Lines 356-383: the probes and the decision they lead to. *)
Definition decide_mode (h : head_obs) (p : probe_obs) (g : get_obs)
    (chunk_size : Z) : mode :=
  let '(size, v) := head_probe h in
  let supports := supports_ranges p in
  match size with
  | SizeNone =>
      match sized_get g with
      | inl e => UrlRaises e
      | inr n => choose_mode (SizeInt n) supports chunk_size v
      end
  | _ => choose_mode size supports chunk_size v
  end.

(** What [download_url] ends with: the segmented engine's result, the
    single stream's, or an exception of its own. *)
Inductive url_result :=
  | ViaSegmented (r : dresult)
  | ViaSingle (r : outcome * sstate)
  | UrlFailed (e : url_exn).

(** [download_url], lines 349-389.  [seg_srv] answers the requests of the
    segmented engine, [single_srv] those of the single stream; [file] and
    [meta] are the output file and the side file found on disk. *)
Definition download_url (h : head_obs) (p : probe_obs) (g : get_obs)
    (fuel : nat) (seg_srv : Z -> server) (single_srv : nat -> reply)
    (url : string) (chunk_size retries : Z) (plan_fuel : nat)
    (file : option bytes) (meta : option metadata) : url_result :=
  match decide_mode h p g chunk_size with
  | Segmented size v =>
      ViaSegmented
        (download_segmented fuel seg_srv url size chunk_size retries v
                            plan_fuel file meta)
  | SingleStream => ViaSingle (download_single fuel single_srv retries file)
  | UrlRaises e => UrlFailed e
  end.
End probing.

(** ** Predicates used to state and prove the properties *)

(** [chain c lo rs hi]: the segments [rs] follow one another without gap or
    overlap from offset [lo] up to, not including, [hi]; none is empty and
    none is longer than [c]. *)
Inductive chain (c : Z) : Z -> list segment -> Z -> Prop :=
  | chain_nil lo : chain c lo [] lo
  | chain_cons lo e rs hi :
      lo <= e -> e - lo + 1 <= c -> chain c (e + 1) rs hi ->
      chain c lo ((lo, e) :: rs) hi.

(** [forward e lo ws hi]: the writes [ws], in the order they were made,
    each start at or after the end of the one before, the first at or after
    [lo]; none is empty, none reaches past offset [e], and [hi] is at or
    after the end of the last one. *)
Inductive forward (e : Z) : Z -> list (Z * bytes) -> Z -> Prop :=
  | forward_nil lo hi : lo <= hi -> forward e lo [] hi
  | forward_cons lo off data ws hi :
      lo <= off -> data ≠ [] -> off + py_len data <= e + 1 ->
      forward e (off + py_len data) ws hi ->
      forward e lo ((off, data) :: ws) hi.

(** [tiles lo ws hi]: the writes [ws] cover the offsets [lo .. hi - 1] one
    after the other, each starting where the one before ended. *)
Inductive tiles : Z -> list (Z * bytes) -> Z -> Prop :=
  | tiles_nil lo : tiles lo [] lo
  | tiles_cons lo data ws hi :
      data ≠ [] -> tiles (lo + py_len data) ws hi ->
      tiles lo ((lo, data) :: ws) hi.

(** All bytes written, in order. *)
Definition written (ws : list (Z * bytes)) : bytes := concat ws.*2.

(** The state changes [fetch_range] is made of: bookkeeping (request count,
    [attempt], [backoff], sleeping), a cursor moved ahead to the start some
    206 reply declared, and the write of one truncated, non-empty chunk at
    the cursor. *)
Inductive prim (srv : server) (e : Z) : fstate -> fstate -> Prop :=
  | prim_book st a b sl n :
      prim srv e st
        (FState (st_pos st) a b (st_file st) (st_done st) (st_writes st) sl n)
  | prim_jump st n r s :
      srv n (st_pos st) e = Reply r -> status r = 206 ->
      cr_start r = Some s -> s > st_pos st ->
      prim srv e st (set_pos s st)
  | prim_write st chunk :
      st_pos st <= e -> chunk ≠ [] ->
      prim srv e st
        (write_chunk chunk (Z.min (py_len chunk) (e - st_pos st + 1)) st).

(** A server that never declares, in a 206 reply, a [Content-Range] start
    ahead of the offset it was asked for. *)
Definition no_forward_jump (srv : server) (e : Z) : Prop :=
  ∀ n pos r s,
    srv n pos e = Reply r -> status r = 206 -> cr_start r = Some s ->
    s <= pos.

(** [f'] is [f] except possibly at the offsets [start .. e]. *)
Definition unchanged_outside (start e : Z) (f f' : bytes) : Prop :=
  length f' = length f
  ∧ ∀ k : nat, Z.of_nat k < start ∨ e < Z.of_nat k -> f' !! k = f !! k.

(** The file [f] holds every byte of the writes [ws] at the offset it was
    written to. *)
Definition holds_writes (f : bytes) (ws : list (Z * bytes)) : Prop :=
  ∀ off data j b,
    (off, data) ∈ ws -> data !! j = Some b ->
    f !! (Z.to_nat off + j)%nat = Some b.

(** What holds of the state of [fetch_range start e] at every point, for a
    call that started with the file [file0] and the counter at [done0]. *)
Definition fetch_inv (start e : Z) (file0 : bytes) (done0 : Z) (st : fstate)
    : Prop :=
  forward e start (st_writes st) (st_pos st)
  ∧ st_done st = done0 + py_len (written (st_writes st))
  ∧ (0 <= start -> e < py_len file0 ->
     unchanged_outside start e file0 (st_file st)
     ∧ holds_writes (st_file st) (st_writes st)).

(** The delay slept after the timeout that finds [attempt = a]: 1, 2, 4, 8,
    then 10 seconds; and the [k] delays slept from [attempt = a] on. *)
Definition backoff_of (a : Z) : Z := Z.min (2 ^ a) 10.

Fixpoint delays (a : Z) (k : nat) : list Z :=
  match k with
  | O => []
  | S k' => backoff_of a :: delays (a + 1) k'
  end.

(** The state after [k] more timeouts, each slept out, none re-raised. *)
Definition after_timeouts (k : nat) (st : fstate) : fstate :=
  FState (st_pos st) (st_attempt st + Z.of_nat k)
         (backoff_of (st_attempt st + Z.of_nat k)) (st_file st) (st_done st)
         (st_writes st) (st_sleeps st ++ delays (st_attempt st) k)
         (st_requests st + k).

(** A server that serves [resource]: a request for [pos .. e] within the
    resource is answered 206 with a Content-Range starting at [pos] and a
    body that ends normally and carries those bytes, or a non-empty first
    part of them (a short read), in non-empty chunks. *)
Definition honest (resource : bytes) (srv : server) : Prop :=
  ∀ n pos e,
    0 <= pos <= e -> e < py_len resource ->
    ∃ r, srv n pos e = Reply r ∧ status r = 206 ∧ cr_start r = Some pos
         ∧ Forall (fun c => c ≠ []) (chunks r) ∧ chunks r ≠ []
         ∧ concat (chunks r) `prefix_of` slice resource pos e
         ∧ ending r = BodyEOF.

(** The plain range server for [resource]: one chunk with the bytes asked
    for.  And one that never sends more than two bytes per reply. *)
Definition serve (resource : bytes) : server :=
  fun _ pos e => Reply (Response 206 (Some pos) [slice resource pos e] BodyEOF).

Definition serve_short (resource : bytes) : server :=
  fun _ pos e =>
    Reply (Response 206 (Some pos) [take 2 (slice resource pos e)] BodyEOF).

(** A side file that is absent, or was written for this URL, size and
    validators. *)
Definition meta_matches (url : string) (size : Z) (v : validators)
    (meta : option metadata) : Prop :=
  match meta with
  | None => True
  | Some md =>
      m_url md = Some url ∧ m_size md = Some size
      ∧ m_etag md = v_etag v ∧ m_last_modified md = v_last_modified v
  end.

(** A task whose segment lies within the resource. *)
Definition valid_task (resource : bytes) (t : Z * segment) : Prop :=
  0 <= t.2.1 <= t.2.2 ∧ t.2.2 < py_len resource.

(** What holds in every state the tasks of one download can reach: a task
    inside its completion block holds the event loop, the dict it holds is
    the one the block computes from the side file as it is now, and every
    finished task is listed in the side file. *)
Definition task_inv (url : string) (size chunk_size : Z) (v : validators)
    (st : cstate) : Prop :=
  (∀ i, in_block (c_pc st i) -> c_running st = Some i)
  ∧ (∀ i md, c_pc st i = Loaded md -> md = load_or_empty (c_meta st))
  ∧ (∀ i md, c_pc st i = Updated md ->
             md = mark_done url size chunk_size v i (c_meta st))
  ∧ (∀ i, c_pc st i = Finished -> i ∈ persisted_done (c_meta st)).

(** What holds of the retry fields whenever the loop test is reached. *)
Definition retry_inv (st : fstate) : Prop :=
  0 <= st_attempt st
  ∧ st_backoff st = backoff_of (st_attempt st)
  ∧ Forall (fun d => d ∈ [1; 2; 4; 8; 10]) (st_sleeps st)
  ∧ (length (st_sleeps st) <= st_requests st)%nat.

(** The part of [retry_inv] that survives an exception, and what an
    exception that leaves the loop can be. *)
Definition retry_end (max_retries : Z) (ex : option exn) (st : fstate) : Prop :=
  Forall (fun d => d ∈ [1; 2; 4; 8; 10]) (st_sleeps st)
  ∧ (length (st_sleeps st) <= st_requests st)%nat
  ∧ match ex with
    | Some TimeoutError => st_attempt st > max_retries
    | Some ClientError | None => True
    | Some _ => False
    end.

(** An attempt of [download_single] that ends without an exception: a
    reply with a status below 400 whose body ends normally. *)
Definition succeeds (rp : reply) : bool :=
  match rp with
  | Reply r =>
      negb (raise_for_status r)
      && match ending r with BodyEOF => true | _ => false end
  | _ => false
  end.

(** What holds of [download_single] each time its [try] is entered: every
    request so far has failed and was slept out. *)
Definition single_inv (srv : nat -> reply) (max_retries : Z) (st : sstate)
    : Prop :=
  ss_attempt st = Z.of_nat (ss_requests st)
  ∧ ss_attempt st <= Z.max 0 max_retries
  ∧ ss_backoff st = backoff_of (ss_attempt st)
  ∧ ss_sleeps st = delays 0 (ss_requests st)
  ∧ ∀ n, (n < ss_requests st)%nat -> succeeds (srv n) = false.

(** A stand-in for [int] on the header strings of the examples. *)
Definition int_of_example (s : string) : option Z :=
  if decide (s = "10") then Some 10 else None.

(** The number of bytes in the segments [l]. *)
Definition seg_total (l : list segment) : Z :=
  foldr (fun seg acc => seg.2 - seg.1 + 1 + acc) 0 l.

(** The state a [step] carries. *)
Definition step_state (s : step) : fstate :=
  match s with Next st | Break st | Stop _ st => st end.

(* ================================================================== *)
(** * Part II: properties                                               *)
(* ================================================================== *)

(** ** Range planner *)

Section planner_facts.
Context {c : Z}.
Implicit Types (rs : list segment) (lo hi s e : Z).

Lemma chain_le lo rs hi : chain c lo rs hi -> lo <= hi.
Proof. induction 1; lia. Qed.

Lemma chain_head lo rs hi :
  chain c lo rs hi -> lo < hi -> ∃ e, head rs = Some (lo, e).
Proof. destruct 1; [lia|]. intros _. by eexists. Qed.

Lemma chain_last lo rs hi :
  chain c lo rs hi -> lo < hi -> ∃ s, last rs = Some (s, hi - 1).
Proof.
  induction 1 as [lo|lo e rs hi Hle Hc Hch IH]; [lia|]. intros _.
  inversion Hch as [lo' Hlo|lo' e' rs' hi' H1 H2 H3]; subst.
  - exists lo. simpl. do 2 f_equal. lia.
  - destruct IH as [s Hs]; [apply chain_le in H3; lia|].
    exists s. by rewrite last_cons, Hs.
Qed.

Lemma chain_elem lo rs hi s e :
  chain c lo rs hi -> (s, e) ∈ rs ->
  lo <= s ∧ s <= e ∧ e < hi ∧ e - s + 1 <= c.
Proof.
  induction 1 as [lo|lo e' rs hi Hle Hc Hch IH]; intros Hin.
  - by apply elem_of_nil in Hin.
  - apply chain_le in Hch as Hhi.
    apply elem_of_cons in Hin as [[= -> ->]|Hin]; [lia|].
    specialize (IH Hin). lia.
Qed.

Lemma chain_adjacent lo rs hi i s1 e1 s2 e2 :
  chain c lo rs hi ->
  rs !! i = Some (s1, e1) -> rs !! S i = Some (s2, e2) -> e1 + 1 = s2.
Proof.
  intros Hch. revert i.
  induction Hch as [lo|lo e rs hi Hle Hc Hch IH]; intros i H1 H2; [done|].
  destruct i as [|i]; simpl in *.
  - injection H1 as -> ->. destruct Hch; simpl in *; congruence.
  - eauto.
Qed.

Lemma chain_cover lo rs hi x :
  chain c lo rs hi -> lo <= x < hi ->
  ∃ i s e, rs !! i = Some (s, e) ∧ s <= x <= e.
Proof.
  induction 1 as [lo|lo e rs hi Hle Hc Hch IH]; intros Hx; [lia|].
  destruct (decide (x <= e)).
  - exists 0%nat, lo, e. split; [done|lia].
  - destruct IH as (i & s' & e' & Hi & Hr); [lia|].
    exists (S i), s', e'. done.
Qed.

Lemma chain_disjoint lo rs hi i j s1 e1 s2 e2 x :
  chain c lo rs hi ->
  rs !! i = Some (s1, e1) -> rs !! j = Some (s2, e2) ->
  s1 <= x <= e1 -> s2 <= x <= e2 -> i = j.
Proof.
  intros Hch. revert i j.
  induction Hch as [lo|lo e rs hi Hle Hc Hch IH]; intros i j H1 H2 Hx1 Hx2;
    [done|].
  destruct i as [|i], j as [|j]; simpl in *; [done| | |f_equal; eauto].
  - injection H1 as <- <-.
    apply list_elem_of_lookup_2 in H2.
    pose proof (chain_elem _ _ _ _ _ Hch H2). lia.
  - injection H2 as <- <-.
    apply list_elem_of_lookup_2 in H1.
    pose proof (chain_elem _ _ _ _ _ Hch H1). lia.
Qed.
End planner_facts.

Lemma plan_loop_chain (fuel : nat) (size c pos : Z) (acc : list segment) :
  0 < c -> pos <= size -> (Z.to_nat (size - pos) <= fuel)%nat ->
  ∃ tail, plan_loop fuel size c pos acc = Some (acc ++ tail)
          ∧ chain c pos tail size.
Proof.
  intros Hc. revert pos acc.
  induction fuel as [|fuel IH]; intros pos acc Hpos Hfuel; simpl.
  - case_decide; [lia|]. exists []. rewrite app_nil_r.
    assert (pos = size) as -> by lia. split; [done|constructor].
  - case_decide.
    + set (e := Z.min (size - 1) (pos + c - 1)).
      destruct (IH (e + 1) (acc ++ [(pos, e)])) as (tail & Heq & Hch);
        [lia..|].
      exists ((pos, e) :: tail). split.
      * by rewrite Heq, <- app_assoc.
      * constructor; [lia..|done].
    + exists []. rewrite app_nil_r.
      assert (pos = size) as -> by lia. split; [done|constructor].
Qed.

Lemma plan_loop_fuel_irrelevant (f1 f2 : nat) (size c pos : Z)
    (acc r1 r2 : list segment) :
  plan_loop f1 size c pos acc = Some r1 ->
  plan_loop f2 size c pos acc = Some r2 -> r1 = r2.
Proof.
  revert f2 pos acc.
  induction f1 as [|f1 IH]; intros f2 pos acc; destruct f2; simpl;
    case_decide; try congruence.
  apply IH.
Qed.

(** C2.  For [size > 0] and [chunk_size > 0] the planning loop terminates
    (any fuel of at least [size] iterations is enough) and its result does
    not depend on the fuel, so replanning gives the same boundaries.  The
    planned segments start at 0, end at [size - 1], are adjacent
    ([segment[i].end + 1 = segment[i+1].start]), are non-empty and at most
    [chunk_size] long, and every offset of [0, size) lies in exactly one of
    them. *)
Theorem plan_ranges_partition (size chunk_size : Z) :
  0 < size -> 0 < chunk_size ->
  ∃ ranges : list segment,
    (∀ fuel, (Z.to_nat size <= fuel)%nat ->
             plan_ranges fuel size chunk_size = Some ranges)
    ∧ (∀ fuel rs, plan_ranges fuel size chunk_size = Some rs -> rs = ranges)
    ∧ (∃ e, head ranges = Some (0, e))
    ∧ (∃ s, last ranges = Some (s, size - 1))
    ∧ (∀ i s1 e1 s2 e2,
         ranges !! i = Some (s1, e1) -> ranges !! S i = Some (s2, e2) ->
         e1 + 1 = s2)
    ∧ (∀ s e, (s, e) ∈ ranges ->
         0 <= s ∧ s <= e ∧ e <= size - 1 ∧ e - s + 1 <= chunk_size)
    ∧ (∀ x, 0 <= x < size ->
         ∃ i s e, ranges !! i = Some (s, e) ∧ s <= x <= e
           ∧ ∀ j s' e', ranges !! j = Some (s', e') -> s' <= x <= e' -> j = i).
Proof.
  intros Hs Hc.
  destruct (plan_loop_chain (Z.to_nat size) size chunk_size 0 [] Hc)
    as (ranges & Hplan & Hch); [lia..|].
  simpl in Hplan. exists ranges. repeat split.
  - intros fuel Hfuel.
    destruct (plan_loop_chain fuel size chunk_size 0 [] Hc)
      as (rs & Hrs & _); [lia..|].
    unfold plan_ranges. rewrite Hrs. f_equal.
    eapply plan_loop_fuel_irrelevant; [exact Hrs|exact Hplan].
  - intros fuel rs Hrs.
    eapply plan_loop_fuel_irrelevant; [exact Hrs|exact Hplan].
  - apply (chain_head _ _ _ Hch). lia.
  - apply (chain_last _ _ _ Hch). lia.
  - intros i s1 e1 s2 e2. apply (chain_adjacent _ _ _ _ _ _ _ _ Hch).
  - pose proof (chain_elem _ _ _ _ _ Hch H). lia.
  - pose proof (chain_elem _ _ _ _ _ Hch H). lia.
  - pose proof (chain_elem _ _ _ _ _ Hch H). lia.
  - pose proof (chain_elem _ _ _ _ _ Hch H). lia.
  - intros x Hx.
    destruct (chain_cover _ _ _ x Hch) as (i & s & e & Hi & Hr); [lia|].
    exists i, s, e. repeat split; [done|lia..|].
    intros j s' e' Hj Hr'. eapply chain_disjoint; eauto.
Qed.

Lemma plan_ranges_partition_witness :
  ∃ ranges : list segment,
    (∀ fuel, (Z.to_nat 10 <= fuel)%nat -> plan_ranges fuel 10 3 = Some ranges)
    ∧ (∀ fuel rs, plan_ranges fuel 10 3 = Some rs -> rs = ranges)
    ∧ (∃ e, head ranges = Some (0, e))
    ∧ (∃ s, last ranges = Some (s, 10 - 1))
    ∧ (∀ i s1 e1 s2 e2,
         ranges !! i = Some (s1, e1) -> ranges !! S i = Some (s2, e2) ->
         e1 + 1 = s2)
    ∧ (∀ s e, (s, e) ∈ ranges ->
         0 <= s ∧ s <= e ∧ e <= 10 - 1 ∧ e - s + 1 <= 3)
    ∧ (∀ x, 0 <= x < 10 ->
         ∃ i s e, ranges !! i = Some (s, e) ∧ s <= x <= e
           ∧ ∀ j s' e', ranges !! j = Some (s', e') -> s' <= x <= e' -> j = i).
Proof. apply (plan_ranges_partition 10 3); lia. Defined.

(** ** Resume decision *)

Lemma truthy_with_url (md : metadata) (url : string) :
  m_url md = Some url -> truthy (Some md) = true.
Proof.
  intros Hurl. unfold truthy. apply bool_decide_eq_true.
  intros ->. discriminate.
Qed.

(** C3, as stated, fails: the entity tags differ, the last-modified values
    agree, and all four recorded segments are trusted. *)
Lemma etag_mismatch_trusted_by_last_modified :
  let md := Metadata (Some "http://h/f") (Some 10) (Some 3) (Some "v1")
                     (Some "Mon, 01 Jan 2024") (Some [0; 1; 2; 3]) in
  let v := Validators (Some "v2") (Some "Mon, 01 Jan 2024") in
  m_url md = Some "http://h/f" ∧ m_size md = Some 10
  ∧ m_etag md ≠ v_etag v
  ∧ trusted_done (Some md) "http://h/f" 10 v = list_to_set [0; 1; 2; 3]
  ∧ trusted_done (Some md) "http://h/f" 10 v ≠ ∅.
Proof.
  simpl. split; [reflexivity|]. split; [reflexivity|]. split; [congruence|].
  split; [reflexivity|].
  intros H. apply (f_equal elements) in H. vm_compute in H. discriminate.
Qed.

(** C3, amended.  With matching URL and size, when the recorded entity tag
    differs from the probed one and the recorded last-modified value differs
    from the probed one as well, no recorded segment index is trusted,
    whatever the side file lists as done. *)
Theorem validator_mismatch_restarts (md : metadata) (url : string) (size : Z)
    (v : validators) :
  m_url md = Some url -> m_size md = Some size ->
  m_etag md ≠ v_etag v -> m_last_modified md ≠ v_last_modified v ->
  trusted_done (Some md) url size v = ∅.
Proof.
  intros Hurl Hsize Hetag Hlm. unfold trusted_done.
  rewrite (truthy_with_url _ _ Hurl).
  rewrite !bool_decide_eq_true_2 by done.
  rewrite !bool_decide_eq_false_2 by done. done.
Qed.

Lemma validator_mismatch_restarts_witness :
  trusted_done
    (Some (Metadata (Some "http://h/f") (Some 10) (Some 3) (Some "v1")
                    (Some "Mon") (Some [0; 1; 2; 3])))
    "http://h/f" 10 (Validators (Some "v2") (Some "Tue")) = ∅.
Proof.
  apply (validator_mismatch_restarts
           (Metadata (Some "http://h/f") (Some 10) (Some 3) (Some "v1")
                     (Some "Mon") (Some [0; 1; 2; 3]))
           "http://h/f" 10 (Validators (Some "v2") (Some "Tue")));
    simpl; congruence.
Defined.

(** The resume decision in full: with matching URL and size the recorded
    done list is trusted exactly when one of the two validators agrees. *)
Lemma trusted_done_matching (md : metadata) (url : string) (size : Z)
    (v : validators) :
  m_url md = Some url -> m_size md = Some size ->
  m_etag md = v_etag v ∨ m_last_modified md = v_last_modified v ->
  trusted_done (Some md) url size v = list_to_set (get_done md).
Proof.
  intros Hurl Hsize Hv. unfold trusted_done.
  rewrite (truthy_with_url _ _ Hurl).
  rewrite !bool_decide_eq_true_2 by done. simpl.
  destruct Hv as [Hv|Hv].
  - by rewrite (bool_decide_eq_true_2 _ Hv).
  - rewrite (bool_decide_eq_true_2 (m_last_modified md = _) Hv).
    by rewrite orb_true_r.
Qed.

(** ** The output file: reading back what was written *)

Lemma py_len_app {A} (l k : list A) : py_len (l ++ k) = py_len l + py_len k.
Proof. unfold py_len. rewrite length_app. lia. Qed.

Lemma py_len_nonneg {A} (l : list A) : 0 <= py_len l.
Proof. unfold py_len. lia. Qed.

Lemma py_len_pos {A} (l : list A) : l ≠ [] -> 0 < py_len l.
Proof. destruct l; [done|]. unfold py_len. simpl. lia. Qed.

Lemma length_write_at (f : bytes) (pos : Z) (data : bytes) :
  0 <= pos -> pos + py_len data <= py_len f ->
  length (write_at f pos data) = length f.
Proof.
  unfold write_at, py_len. intros Hpos Hfit.
  destruct data as [|b data]; [done|].
  rewrite !length_app, length_take, length_replicate, length_drop.
  simpl in *. lia.
Qed.

Lemma lookup_write_at (f : bytes) (pos : Z) (data : bytes) (k : nat) :
  0 <= pos -> pos + py_len data <= py_len f ->
  write_at f pos data !! k =
    if decide (Z.to_nat pos <= k < Z.to_nat pos + length data)%nat
    then data !! (k - Z.to_nat pos)%nat
    else f !! k.
Proof.
  unfold write_at, py_len. intros Hpos Hfit.
  destruct data as [|b data].
  { simpl. case_decide; [lia|done]. }
  set (d := b :: data) in *. set (p := Z.to_nat pos).
  assert (p + length d <= length f)%nat by (subst p; lia).
  replace (p - length f)%nat with 0%nat by lia. simpl replicate.
  rewrite app_nil_l.
  case_decide as Hk.
  - rewrite lookup_app_r by (rewrite length_take; lia).
    rewrite length_take, Nat.min_l by lia.
    by rewrite lookup_app_l by lia.
  - destruct (decide (k < p)%nat).
    + rewrite lookup_app_l by (rewrite length_take; lia).
      by rewrite lookup_take_lt by lia.
    + rewrite lookup_app_r by (rewrite length_take; lia).
      rewrite length_take, Nat.min_l by lia.
      rewrite lookup_app_r by lia.
      rewrite lookup_drop. f_equal. lia.
Qed.

(** ** Writes that move forward *)

Section write_facts.
Implicit Types (ws : list (Z * bytes)) (lo hi off e : Z) (data : bytes).

Lemma forward_le e lo ws hi : forward e lo ws hi -> lo <= hi.
Proof.
  induction 1 as [|lo off data ws hi ? Hne ? _ IH]; [done|].
  apply py_len_pos in Hne. lia.
Qed.

Lemma forward_weaken e lo ws hi hi' :
  forward e lo ws hi -> hi <= hi' -> forward e lo ws hi'.
Proof.
  induction 1; intros; constructor; auto; lia.
Qed.

Lemma forward_snoc e lo ws hi off data :
  forward e lo ws hi -> hi <= off -> data ≠ [] ->
  off + py_len data <= e + 1 ->
  forward e lo (ws ++ [(off, data)]) (off + py_len data).
Proof.
  induction 1 as [lo hi Hle|lo off' data' ws hi ? ? ? _ IH]; intros; simpl.
  - constructor; [lia|done|done|]. constructor. lia.
  - constructor; auto.
Qed.

(** Every write of a forward sequence lies in [lo .. e] and ends at or
    before [hi]. *)
Lemma forward_elem e lo ws hi off data :
  forward e lo ws hi -> (off, data) ∈ ws ->
  lo <= off ∧ data ≠ [] ∧ off + py_len data <= e + 1
  ∧ off + py_len data <= hi.
Proof.
  induction 1 as [|lo off' data' ws hi Hlo Hne Hend Hfw IH]; intros Hin.
  - by apply elem_of_nil in Hin.
  - apply forward_le in Hfw as Hhi. apply py_len_pos in Hne as Hlen.
    apply elem_of_cons in Hin as [[= -> ->]|Hin]; [done|].
    destruct (IH Hin) as (? & ? & ? & ?).
    split; [lia|]. split; [done|]. lia.
Qed.

Lemma tiles_snoc lo ws hi data :
  tiles lo ws hi -> data ≠ [] ->
  tiles lo (ws ++ [(hi, data)]) (hi + py_len data).
Proof.
  induction 1; intros; simpl; constructor; auto. constructor.
Qed.

Lemma tiles_written lo ws hi : tiles lo ws hi -> py_len (written ws) = hi - lo.
Proof.
  unfold written. induction 1 as [|lo data ws hi _ _ IH].
  - unfold py_len. simpl. lia.
  - rewrite fmap_cons, concat_cons, py_len_app, IH. simpl. lia.
Qed.

Lemma written_app ws1 ws2 : written (ws1 ++ ws2) = written ws1 ++ written ws2.
Proof. unfold written. by rewrite fmap_app, concat_app. Qed.
End write_facts.

(** ** [fetch_range] is made of primitive state changes *)

Section prim_facts.
Variable srv : server.
Variable e max_retries : Z.

Lemma prim_count_request st : prim srv e st (count_request st).
Proof. apply prim_book. Qed.

Lemma prim_reset_retry st : prim srv e st (reset_retry st).
Proof. apply prim_book. Qed.

Lemma on_timeout_prim st : prim srv e st (step_state (on_timeout max_retries st)).
Proof. unfold on_timeout. case_decide; apply prim_book. Qed.

Lemma check_content_range_prim n r st :
  srv n (st_pos st) e = Reply r ->
  rtc (prim srv e) st (check_content_range r st).
Proof.
  intros Hr. unfold check_content_range.
  case_decide; [|done]. destruct (cr_start r) as [s|] eqn:Hs; [|done].
  case_decide; [|done]. apply rtc_once. by eapply prim_jump.
Qed.

Lemma iter_chunks_prim cs st :
  rtc (prim srv e) st (iter_chunks e cs st).1.
Proof.
  revert st. induction cs as [|chunk cs IH]; intros st; simpl; [done|].
  case_decide; [done|]. case_decide as Hwant; [done|].
  eapply rtc_l; [|apply IH]. apply prim_write; [lia|].
  intros ->. apply Hwant. unfold py_len. simpl. lia.
Qed.

Lemma fetch_step_prim st :
  rtc (prim srv e) st (step_state (fetch_step srv e max_retries st)).
Proof.
  unfold fetch_step.
  destruct (srv (st_requests st) (st_pos st) e) as [| |r] eqn:Hr.
  - eapply rtc_l; [apply prim_count_request|].
    apply rtc_once, on_timeout_prim.
  - apply rtc_once, prim_count_request.
  - destruct (_ && _); [apply rtc_once, prim_count_request|].
    case_decide; [apply rtc_once, prim_count_request|].
    destruct (iter_chunks _ _ _) as [st2 broke] eqn:Hit.
    assert (rtc (prim srv e) st st2) as Hst2.
    { eapply rtc_l; [apply prim_count_request|].
      etrans; [eapply (check_content_range_prim (st_requests st)), Hr|].
      pose proof (iter_chunks_prim (chunks r)
                    (check_content_range r (count_request st))) as Hp.
      by rewrite Hit in Hp. }
    destruct broke; [|destruct (ending r)]; simpl.
    + eapply rtc_r; [exact Hst2|apply prim_reset_retry].
    + eapply rtc_r; [exact Hst2|apply prim_reset_retry].
    + eapply rtc_r; [exact Hst2|apply on_timeout_prim].
    + exact Hst2.
Qed.

Lemma fetch_loop_prim fuel st :
  rtc (prim srv e) st (fetch_loop fuel srv e max_retries st).2.
Proof.
  revert st. induction fuel as [|fuel IH]; intros st; simpl.
  - by case_decide.
  - case_decide; [|done].
    pose proof (fetch_step_prim st) as Hstep.
    destruct (fetch_step srv e max_retries st) as [st'|st'|ex st']; simpl in *;
      [|done..].
    etrans; [exact Hstep|apply IH].
Qed.
End prim_facts.

Lemma final_guard_state (start e : Z) (res : option (option exn) * fstate) :
  (final_guard start e res).2 = res.2.
Proof.
  destruct res as [[[ex|]|] st]; simpl; [done| |done]. by case_decide.
Qed.

Lemma fetch_range_prim (fuel : nat) (srv : server) (start e max_retries : Z)
    (file : bytes) (done : Z) :
  rtc (prim srv e) (fetch_init start file done)
      (fetch_range fuel srv start e max_retries file done).2.
Proof.
  unfold fetch_range. rewrite final_guard_state. apply fetch_loop_prim.
Qed.

(** ** Safety of the segment fetcher *)

Lemma take_want (chunk : bytes) (room : Z) :
  chunk ≠ [] -> 0 < room ->
  let data := take (Z.to_nat (Z.min (py_len chunk) room)) chunk in
  data ≠ [] ∧ py_len data = Z.min (py_len chunk) room.
Proof.
  intros Hne Hroom. apply py_len_pos in Hne as Hlen. simpl.
  assert (py_len (take (Z.to_nat (Z.min (py_len chunk) room)) chunk)
          = Z.min (py_len chunk) room) as Heq.
  { unfold py_len in *. rewrite length_take. lia. }
  split; [|done]. intros Hnil. rewrite Hnil in Heq.
  unfold py_len in Heq. simpl in Heq. unfold py_len in Hlen. lia.
Qed.

Section invariant.
Variable srv : server.
Variables start e : Z.
Variable file0 : bytes.
Variable done0 : Z.

Lemma fetch_inv_init : fetch_inv start e file0 done0 (fetch_init start file0 done0).
Proof.
  split; [constructor; simpl; lia|]. split.
  - unfold py_len. simpl. lia.
  - intros _ _. split; [by split|].
    intros off data j b Hin. by apply elem_of_nil in Hin.
Qed.

Lemma fetch_inv_prim st st' :
  fetch_inv start e file0 done0 st -> prim srv e st st' ->
  fetch_inv start e file0 done0 st'.
Proof.
  intros (Hfw & Hdone & Hfile) Hprim.
  destruct Hprim as [st a b sl n|st n r s Hr H206 Hcr Hgt|st chunk Hpos Hne].
  - done.
  - split; [|done]. simpl. apply (forward_weaken _ _ _ _ _ Hfw). lia.
  - destruct (take_want chunk (e - st_pos st + 1) Hne) as [Hdne Hdlen]; [lia|].
    set (want := Z.min (py_len chunk) (e - st_pos st + 1)) in *.
    set (data := take (Z.to_nat want) chunk) in *.
    pose proof (forward_le _ _ _ _ Hfw) as Hstart.
    apply py_len_pos in Hdne as Hwant.
    split; [|split]; simpl; fold data.
    + replace (st_pos st + want) with (st_pos st + py_len data) by lia.
      apply (forward_snoc _ _ _ _ _ _ Hfw); [lia|done|lia].
    + rewrite written_app, py_len_app. unfold written at 2. simpl.
      rewrite app_nil_r. lia.
    + intros H0 Hfit. destruct (Hfile H0 Hfit) as [[Hlen Hout] Hholds].
      assert (py_len (st_file st) = py_len file0) as Hlen'
        by (unfold py_len; lia).
      assert (st_pos st + py_len data <= py_len (st_file st)) by lia.
      split; [split|].
      * rewrite length_write_at by lia. done.
      * intros k Hk. rewrite lookup_write_at by lia.
        case_decide; [unfold py_len in *; lia|]. by apply Hout.
      * intros off d j b Hin Hj. rewrite lookup_write_at by lia.
        apply lookup_lt_Some in Hj as Hjlt.
        apply elem_of_app in Hin as [Hin|Hin].
        -- destruct (forward_elem _ _ _ _ _ _ Hfw Hin) as (? & ? & ? & ?).
           case_decide; [unfold py_len in *; lia|]. by eapply Hholds.
        -- apply list_elem_of_singleton in Hin as [= -> ->].
           case_decide; [|unfold py_len in *; lia].
           rewrite <- Hj. f_equal. lia.
Qed.

Lemma fetch_inv_rtc st st' :
  fetch_inv start e file0 done0 st -> rtc (prim srv e) st st' ->
  fetch_inv start e file0 done0 st'.
Proof. induction 2; eauto using fetch_inv_prim. Qed.

Lemma fetch_range_inv fuel max_retries :
  fetch_inv start e file0 done0
    (fetch_range fuel srv start e max_retries file0 done0).2.
Proof.
  eapply fetch_inv_rtc; [apply fetch_inv_init|apply fetch_range_prim].
Qed.
End invariant.

Lemma check_content_range_forward (r : response) (st : fstate) :
  st_pos st <= st_pos (check_content_range r st).
Proof.
  unfold check_content_range. case_decide; [|done].
  destruct (cr_start r); [|done]. case_decide; simpl; lia.
Qed.

(** C4.  Whatever the server answers and however long the fetch runs, the
    writes [fetch_range start e] has made move forward from [start] up to
    the cursor (each at or after the end of the one before), every one of
    them lies within [start .. e] (the chunk is cut at the segment end), and
    a file that contains the segment is left as it was outside
    [start .. e].  A declared Content-Range start never moves the cursor
    back. *)
Theorem fetch_range_writes_in_segment (fuel : nat) (srv : server)
    (start e max_retries : Z) (file : bytes) (done : Z) :
  let st := (fetch_range fuel srv start e max_retries file done).2 in
  forward e start (st_writes st) (st_pos st)
  ∧ (∀ off data, (off, data) ∈ st_writes st ->
       start <= off ∧ off + py_len data - 1 <= e ∧ data ≠ [])
  ∧ (0 <= start -> e < py_len file ->
       unchanged_outside start e file (st_file st))
  ∧ (∀ r st0, st_pos st0 <= st_pos (check_content_range r st0)).
Proof.
  intros st.
  destruct (fetch_range_inv srv start e file done fuel max_retries)
    as (Hfw & _ & Hfile).
  fold st in Hfw, Hfile.
  split; [done|]. split; [|split].
  - intros off data Hin.
    destruct (forward_elem _ _ _ _ _ _ Hfw Hin) as (? & ? & ? & ?).
    split; [lia|]. split; [lia|done].
  - intros H0 Hfit. by destruct (Hfile H0 Hfit).
  - apply check_content_range_forward.
Qed.

(** ** Status 416 *)

Lemma fetch_step_416 (srv : server) (e max_retries : Z) (st : fstate)
    (r : response) :
  srv (st_requests st) (st_pos st) e = Reply r -> status r = 416 ->
  fetch_step srv e max_retries st = Break (count_request st).
Proof.
  intros Hr H416. unfold fetch_step. rewrite Hr.
  rewrite bool_decide_eq_false_2 by (rewrite H416; lia). simpl.
  by rewrite decide_True.
Qed.

(** C5 is not what the code does.  A 416 reply leaves the [while] loop by
    [break] with the cursor where it was, at or before [e]; the final guard
    then raises the incomplete-range error, with the bytes got so far
    ([pos - start]) and the bytes needed. *)
Theorem range_not_satisfiable_raises (fuel : nat) (srv : server)
    (start e max_retries : Z) (st : fstate) (r : response) :
  st_pos st <= e ->
  srv (st_requests st) (st_pos st) e = Reply r -> status r = 416 ->
  final_guard start e (fetch_loop (S fuel) srv e max_retries st)
  = (Raised (RuntimeError (st_pos st - start) (e - start + 1)),
     count_request st).
Proof.
  intros Hpos Hr H416. simpl. rewrite decide_True by done.
  rewrite (fetch_step_416 _ _ _ _ _ Hr H416). simpl.
  by rewrite decide_True.
Qed.

Lemma range_not_satisfiable_raises_witness :
  fetch_range 1 (fun _ _ _ => Reply (Response 416 None [] BodyEOF)) 0 9 5
              (replicate 10 x00) 0
  = (Raised (RuntimeError (0 - 0) (9 - 0 + 1)),
     count_request (fetch_init 0 (replicate 10 x00) 0)).
Proof.
  apply (range_not_satisfiable_raises 0
           (fun _ _ _ => Reply (Response 416 None [] BodyEOF)) 0 9 5
           (fetch_init 0 (replicate 10 x00) 0) (Response 416 None [] BodyEOF));
    [simpl; lia|reflexivity|reflexivity].
Defined.

(** The worker of a segment answered with 416 fails, and the side file is
    not touched: the segment is not marked done. *)
Example worker_416_not_marked :
  worker 3 (fun _ _ _ _ => Reply (Response 416 None [] BodyEOF))
         "http://h/f" 10 5 5 (Validators None None) 1 5 9
         (DState (replicate 10 x00) None 0)
  = (Raised (RuntimeError 0 5), DState (replicate 10 x00) None 0).
Proof. reflexivity. Qed.

(** ** Completeness of a successful fetch *)

Lemma fetch_range_returned (fuel : nat) (srv : server)
    (start e max_retries : Z) (file : bytes) (done : Z) (st : fstate) :
  fetch_range fuel srv start e max_retries file done = (Returned, st) ->
  st = (fetch_range fuel srv start e max_retries file done).2 ∧ st_pos st > e.
Proof.
  intros Hret. split; [by rewrite Hret|].
  unfold fetch_range, final_guard in Hret.
  destruct (fetch_loop _ _ _ _ _) as [[[ex|]|] st']; [done| |done].
  case_decide; [done|]. injection Hret as <-. lia.
Qed.

Section no_jump.
Variable srv : server.
Variables start e : Z.
Hypothesis Hsrv : no_forward_jump srv e.

Lemma tiles_prim st st' :
  tiles start (st_writes st) (st_pos st) ∧ st_pos st <= Z.max start (e + 1) ->
  prim srv e st st' ->
  tiles start (st_writes st') (st_pos st') ∧ st_pos st' <= Z.max start (e + 1).
Proof.
  intros [Ht Hle] Hprim.
  destruct Hprim as [st a b sl n|st n r s Hr H206 Hcr Hgt|st chunk Hpos Hne].
  - done.
  - specialize (Hsrv _ _ _ _ Hr H206 Hcr). lia.
  - destruct (take_want chunk (e - st_pos st + 1) Hne) as [Hdne Hdlen]; [lia|].
    set (want := Z.min (py_len chunk) (e - st_pos st + 1)) in *.
    set (data := take (Z.to_nat want) chunk) in *.
    simpl. fold data. split; [|lia].
    replace (st_pos st + want) with (st_pos st + py_len data) by lia.
    by apply tiles_snoc.
Qed.

Lemma tiles_rtc st st' :
  tiles start (st_writes st) (st_pos st) ∧ st_pos st <= Z.max start (e + 1) ->
  rtc (prim srv e) st st' ->
  tiles start (st_writes st') (st_pos st') ∧ st_pos st' <= Z.max start (e + 1).
Proof. induction 2; eauto using tiles_prim. Qed.
End no_jump.

Lemma tiles_holds (f : bytes) (lo hi : Z) (ws : list (Z * bytes)) :
  tiles lo ws hi -> 0 <= lo -> holds_writes f ws ->
  ∀ j b, written ws !! j = Some b -> f !! (Z.to_nat lo + j)%nat = Some b.
Proof.
  unfold written.
  induction 1 as [|lo data ws hi Hne Ht IH]; intros Hlo Hholds j b Hj.
  - simpl in Hj. by rewrite lookup_nil in Hj.
  - rewrite fmap_cons, concat_cons in Hj. simpl in Hj.
    destruct (decide (j < length data)%nat).
    + rewrite lookup_app_l in Hj by done.
      apply (Hholds lo data); [left|done].
    + rewrite lookup_app_r in Hj by lia.
      replace (Z.to_nat lo + j)%nat
        with (Z.to_nat (lo + py_len data) + (j - length data))%nat
        by (unfold py_len; lia).
      apply IH; [unfold py_len; lia| |done].
      intros off d j' b' Hin. apply Hholds. by right.
Qed.



(** ** What the body loop does with one response *)

Lemma take_to_length {A} (l : list A) (n : nat) :
  take n l = take (n `min` length l) l.
Proof.
  destruct (decide (n <= length l)%nat).
  - by rewrite Nat.min_l by lia.
  - rewrite Nat.min_r by lia. by rewrite !take_ge by lia.
Qed.

Lemma iter_chunks_writes (e : Z) (cs : list bytes) (st : fstate) :
  Forall (fun c => c ≠ []) cs ->
  let st' := (iter_chunks e cs st).1 in
  st_pos st' = Z.max (st_pos st) (Z.min (st_pos st + py_len (concat cs)) (e + 1))
  ∧ st_done st' = st_done st + (st_pos st' - st_pos st)
  ∧ (st_attempt st' = st_attempt st ∧ st_backoff st' = st_backoff st
     ∧ st_sleeps st' = st_sleeps st ∧ st_requests st' = st_requests st)
  ∧ ∃ new, st_writes st' = st_writes st ++ new
           ∧ tiles (st_pos st) new (st_pos st')
           ∧ written new = take (Z.to_nat (e + 1 - st_pos st)) (concat cs).
Proof.
  intros Hne. revert st.
  induction Hne as [|chunk cs Hc Hcs IH]; intros st; simpl.
  - split; [unfold py_len; simpl; lia|]. split; [lia|]. split; [done|].
    exists []. rewrite app_nil_r, take_nil. split; [done|].
    split; [constructor|done].
  - pose proof (py_len_pos _ Hc) as Hlen.
    pose proof (py_len_nonneg (concat cs)) as Hrest.
    rewrite py_len_app.
    case_decide as Hpos; simpl.
    { split; [lia|]. split; [lia|]. split; [done|].
      exists []. rewrite app_nil_r. split; [done|]. split; [constructor|].
      replace (Z.to_nat (e + 1 - st_pos st)) with 0%nat by lia. done. }
    case_decide as Hwant; [lia|].
    destruct (take_want chunk (e - st_pos st + 1) Hc) as [Hdne Hdlen]; [lia|].
    set (want := Z.min (py_len chunk) (e - st_pos st + 1)) in *.
    set (data := take (Z.to_nat want) chunk) in *.
    destruct (IH (write_chunk chunk want st))
      as (Hp & Hd & Hr & new & Hw & Ht & Hwr).
    simpl in Hp, Hd, Hr, Hw, Ht, Hwr. fold data in Hw.
    split; [lia|]. split; [lia|]. split; [done|].
    exists ((st_pos st, data) :: new). split; [|split].
    + by rewrite Hw, <- app_assoc.
    + constructor; [done|]. by rewrite Hdlen.
    + unfold written in *. rewrite fmap_cons, concat_cons. simpl.
      rewrite Hwr, take_app. f_equal.
      * subst data. rewrite (take_to_length chunk (Z.to_nat (e + 1 - _))).
        f_equal. unfold py_len in *. lia.
      * f_equal. unfold py_len in *. lia.
Qed.

Lemma iter_chunks_file (e : Z) (cs : list bytes) (st : fstate) :
  Forall (fun c => c ≠ []) cs ->
  0 <= st_pos st -> e < py_len (st_file st) ->
  let st' := (iter_chunks e cs st).1 in
  length (st_file st') = length (st_file st)
  ∧ ∀ k : nat,
      st_file st' !! k =
        if decide (Z.to_nat (st_pos st) <= k < Z.to_nat (st_pos st'))%nat
        then concat cs !! (k - Z.to_nat (st_pos st))%nat
        else st_file st !! k.
Proof.
  intros Hne. revert st.
  induction Hne as [|chunk cs Hc Hcs IH]; intros st H0 Hfit; simpl.
  - split; [done|]. intros k. case_decide; [lia|done].
  - pose proof (py_len_pos _ Hc) as Hlen.
    case_decide as Hpos; simpl.
    { split; [done|]. intros k. case_decide; [lia|done]. }
    case_decide as Hwant; [lia|].
    destruct (take_want chunk (e - st_pos st + 1) Hc) as [Hdne Hdlen]; [lia|].
    set (want := Z.min (py_len chunk) (e - st_pos st + 1)) in *.
    set (data := take (Z.to_nat want) chunk) in *.
    pose proof (iter_chunks_writes e cs (write_chunk chunk want st) Hcs)
      as (Hp & _).
    pose proof (py_len_nonneg (concat cs)) as Hrest.
    assert (length (write_at (st_file st) (st_pos st) data)
            = length (st_file st)) as Hlen1
      by (apply length_write_at; lia).
    destruct (IH (write_chunk chunk want st)) as [Hl Hk].
    { simpl. lia. }
    { simpl. fold data. unfold py_len in *. lia. }
    simpl in Hp, Hl, Hk. fold data in Hl, Hk.
    split; [lia|]. intros k. rewrite Hk.
    set (pos' := st_pos (iter_chunks e cs (write_chunk chunk want st)).1) in *.
    case_decide as Hin1.
    + rewrite decide_True by lia.
      assert (want = py_len chunk) as Hfull by lia.
      rewrite lookup_app_r by (unfold py_len in *; lia).
      f_equal. unfold py_len in *. lia.
    + rewrite lookup_write_at by lia.
      case_decide as Hin2.
      * rewrite decide_True by (unfold py_len in *; lia).
        rewrite lookup_app_l by (unfold py_len in *; lia).
        subst data. rewrite lookup_take_lt by (unfold py_len in *; lia). done.
      * rewrite decide_False by (unfold py_len in *; lia). done.
Qed.

Lemma on_timeout_keeps (max_retries : Z) (st : fstate) :
  let st' := step_state (on_timeout max_retries st) in
  st_pos st' = st_pos st ∧ st_file st' = st_file st
  ∧ st_writes st' = st_writes st ∧ st_done st' = st_done st.
Proof. unfold on_timeout. by case_decide. Qed.

Lemma fetch_step_response (srv : server) (e max_retries : Z) (st : fstate)
    (r : response) :
  srv (st_requests st) (st_pos st) e = Reply r ->
  status r = 200 ∨ status r = 206 ->
  let st2 := (iter_chunks e (chunks r)
                (check_content_range r (count_request st))).1 in
  let st' := step_state (fetch_step srv e max_retries st) in
  st_pos st' = st_pos st2 ∧ st_file st' = st_file st2
  ∧ st_writes st' = st_writes st2 ∧ st_done st' = st_done st2
  ∧ ((iter_chunks e (chunks r)
        (check_content_range r (count_request st))).2 = true
     ∨ ending r = BodyEOF ->
     fetch_step srv e max_retries st = Next (reset_retry st2)).
Proof.
  intros Hr Hst. unfold fetch_step. rewrite Hr.
  rewrite bool_decide_eq_false_2 by lia. simpl.
  rewrite decide_False by lia.
  destruct (iter_chunks _ _ _) as [st2 broke]. simpl.
  destruct broke; [|destruct (ending r)]; simpl; try done.
  - destruct (on_timeout_keeps max_retries st2) as (? & ? & ? & ?).
    repeat split; try done. by intros [|].
  - repeat split; try done. by intros [|].
Qed.

Lemma tiles_elem (lo hi off : Z) (ws : list (Z * bytes)) (data : bytes) :
  tiles lo ws hi -> (off, data) ∈ ws ->
  lo <= off ∧ off + py_len data <= hi ∧ 0 < py_len data.
Proof.
  induction 1 as [|lo d ws hi Hne Ht IH]; intros Hin.
  - by apply elem_of_nil in Hin.
  - apply py_len_pos in Hne as Hlen.
    pose proof (tiles_written _ _ _ Ht) as Hw.
    pose proof (py_len_nonneg (written ws)).
    apply elem_of_cons in Hin as [[= -> ->]|Hin]; [lia|].
    specialize (IH Hin). lia.
Qed.

(** The effect of one 200 or 206 reply, for the cursor [p1] left by the
    Content-Range check: the body is written from [p1] on, cut at [e]. *)
Lemma response_body_effect (srv : server) (e max_retries : Z) (st : fstate)
    (r : response) :
  srv (st_requests st) (st_pos st) e = Reply r ->
  status r = 200 ∨ status r = 206 ->
  Forall (fun c => c ≠ []) (chunks r) ->
  let p1 := st_pos (check_content_range r (count_request st)) in
  let st' := step_state (fetch_step srv e max_retries st) in
  st_pos st' = Z.max p1 (Z.min (p1 + py_len (concat (chunks r))) (e + 1))
  ∧ st_done st' = st_done st + (st_pos st' - p1)
  ∧ (∃ new, st_writes st' = st_writes st ++ new
            ∧ tiles p1 new (st_pos st')
            ∧ written new = take (Z.to_nat (e + 1 - p1)) (concat (chunks r)))
  ∧ (0 <= p1 -> e < py_len (st_file st) ->
     ∀ k : nat,
       st_file st' !! k =
         if decide (Z.to_nat p1 <= k < Z.to_nat (st_pos st'))%nat
         then concat (chunks r) !! (k - Z.to_nat p1)%nat
         else st_file st !! k).
Proof.
  intros Hr Hst Hne p1 st'.
  destruct (fetch_step_response srv e max_retries st r Hr Hst)
    as (Hp & Hf & Hw & Hd & _).
  fold st' in Hp, Hf, Hw, Hd.
  set (st1 := check_content_range r (count_request st)) in *.
  assert (st_file st1 = st_file st ∧ st_writes st1 = st_writes st
          ∧ st_done st1 = st_done st) as (Hf1 & Hw1 & Hd1).
  { subst st1. unfold check_content_range. case_decide; [|done].
    destruct (cr_start r); [|done]. by case_decide. }
  destruct (iter_chunks_writes e (chunks r) st1 Hne)
    as (Hp2 & Hd2 & _ & new & Hw2 & Ht2 & Hwr2).
  rewrite Hp, Hd, Hw, Hf. fold p1 in Hp2, Hd2, Ht2, Hwr2.
  split; [done|]. split; [lia|]. split.
  - exists new. by rewrite Hw2, Hw1.
  - intros H0 Hfit.
    destruct (iter_chunks_file e (chunks r) st1 Hne) as [_ Hk];
      [done|by rewrite Hf1|].
    intros k. rewrite Hk, Hf1. done.
Qed.

(** ** Content-Range (C6) *)

(** C6, as stated, fails when the server begins earlier than asked: with the
    cursor at 10, a 206 reply that declares a start of 5 leaves the cursor
    at 10, and the first body byte (offset 5 of the resource) is written at
    file offset 10. *)
Lemma earlier_start_not_corrected :
  let srv : server :=
    fun _ _ _ => Reply (Response 206 (Some 5) [replicate 3 x41] BodyEOF) in
  let st := (fetch_range 1 srv 10 19 5 (replicate 20 x00) 0).2 in
  st_writes st = [(10, replicate 3 x41)]
  ∧ st_pos (check_content_range (Response 206 (Some 5) [replicate 3 x41] BodyEOF)
                                (fetch_init 10 (replicate 20 x00) 0)) = 10
  ∧ st_file st = replicate 10 x00 ++ replicate 3 x41 ++ replicate 7 x00.
Proof. by vm_compute. Qed.

(** C6, amended.  For a 206 reply whose declared Content-Range start [s] is
    at or after the requested cursor, the cursor is [s] before any body byte
    is written: the writes of this reply start at [s] and follow one
    another, body byte [j] lands at file offset [s + j], and nothing is
    written before the requested cursor or past [e]. *)
Theorem content_range_ahead_moves_cursor (srv : server) (e max_retries : Z)
    (st : fstate) (r : response) (s : Z) :
  srv (st_requests st) (st_pos st) e = Reply r ->
  status r = 206 -> cr_start r = Some s -> st_pos st <= s ->
  Forall (fun c => c ≠ []) (chunks r) ->
  let st' := step_state (fetch_step srv e max_retries st) in
  ∃ new,
    st_writes st' = st_writes st ++ new
    ∧ tiles s new (st_pos st')
    ∧ written new = take (Z.to_nat (e + 1 - s)) (concat (chunks r))
    ∧ (∀ off data, (off, data) ∈ new ->
         st_pos st <= off ∧ off + py_len data - 1 <= e)
    ∧ (0 <= s -> e < py_len (st_file st) ->
       ∀ j b, written new !! j = Some b ->
              st_file st' !! (Z.to_nat s + j)%nat = Some b).
Proof.
  intros Hr H206 Hcr Hle Hne st'.
  destruct (response_body_effect srv e max_retries st r Hr (or_intror H206) Hne)
    as (Hp & _ & (new & Hw & Ht & Hwr) & Hfile).
  fold st' in Hp, Hw, Ht, Hfile.
  assert (st_pos (check_content_range r (count_request st)) = s) as Hp1.
  { unfold check_content_range. rewrite decide_True by done. rewrite Hcr.
    case_decide; simpl in *; [done|lia]. }
  rewrite Hp1 in Hp, Ht, Hwr, Hfile.
  pose proof (py_len_nonneg (concat (chunks r))) as Hbody.
  exists new. split; [done|]. split; [done|]. split; [done|]. split.
  - intros off data Hin.
    destruct (tiles_elem _ _ _ _ _ Ht Hin) as (? & ? & ?). lia.
  - intros H0 Hfit j b Hj. rewrite Hfile by done.
    rewrite Hwr in Hj. apply lookup_take_Some in Hj as [Hj Hlt].
    apply lookup_lt_Some in Hj as Hjlen.
    rewrite decide_True by (unfold py_len in *; lia).
    rewrite <- Hj. f_equal. lia.
Qed.

Lemma content_range_ahead_moves_cursor_witness :
  let srv : server :=
    fun _ _ _ => Reply (Response 206 (Some 4) [replicate 3 x41; replicate 9 x42] BodyEOF) in
  let st := fetch_init 2 (replicate 12 x00) 0 in
  let st' := step_state (fetch_step srv 9 5 st) in
  ∃ new,
    st_writes st' = st_writes st ++ new
    ∧ tiles 4 new (st_pos st')
    ∧ written new
      = take (Z.to_nat (9 + 1 - 4)) (concat [replicate 3 x41; replicate 9 x42])
    ∧ (∀ off data, (off, data) ∈ new ->
         st_pos st <= off ∧ off + py_len data - 1 <= 9)
    ∧ (0 <= 4 -> 9 < py_len (st_file st) ->
       ∀ j b, written new !! j = Some b ->
              st_file st' !! (Z.to_nat 4 + j)%nat = Some b).
Proof.
  intros srv st.
  apply (content_range_ahead_moves_cursor srv 9 5 st
           (Response 206 (Some 4) [replicate 3 x41; replicate 9 x42] BodyEOF) 4);
    [reflexivity|reflexivity|reflexivity|simpl; lia|].
  repeat constructor; discriminate.
Defined.


(** ** Status 200 (C10) *)



(** ** Retry and backoff (C8) *)

Lemma backoff_of_next (a : Z) :
  0 <= a -> Z.min (backoff_of a * 2) 10 = backoff_of (a + 1).
Proof.
  intros Ha. unfold backoff_of. rewrite Z.pow_add_r by lia.
  assert (0 < 2 ^ a) by (apply Z.pow_pos_nonneg; lia).
  change (2 ^ 1) with 2. lia.
Qed.

Lemma fstate_eta (st : fstate) :
  st = FState (st_pos st) (st_attempt st) (st_backoff st) (st_file st)
              (st_done st) (st_writes st) (st_sleeps st) (st_requests st).
Proof. by destruct st. Qed.

Section retry.
Variable srv : server.
Variables e max_retries : Z.

(** A request that times out while [attempt < max_retries] is slept out and
    the loop goes on, with the delay doubled up to the cap. *)
Lemma timeouts_slept_out (k fuel : nat) (st : fstate) :
  st_pos st <= e -> 0 <= st_attempt st ->
  st_backoff st = backoff_of (st_attempt st) ->
  (∀ j, (j < k)%nat -> srv (st_requests st + j)%nat (st_pos st) e = ReplyTimeout) ->
  st_attempt st + Z.of_nat k <= max_retries ->
  fetch_loop (k + fuel) srv e max_retries st
  = fetch_loop fuel srv e max_retries (after_timeouts k st).
Proof.
  revert st. induction k as [|k IH]; intros st Hpos Ha Hb Hsrv Hmax.
  - simpl. f_equal. unfold after_timeouts. simpl.
    rewrite Z.add_0_r, app_nil_r, Nat.add_0_r, <- Hb. apply fstate_eta.
  - simpl. rewrite decide_True by done.
    unfold fetch_step. rewrite <- (Nat.add_0_r (st_requests st)) at 1.
    rewrite (Hsrv 0%nat) by lia.
    unfold on_timeout. simpl. rewrite decide_False by lia.
    rewrite IH; simpl; [|done|lia| | |lia].
    + f_equal. unfold after_timeouts. simpl.
      rewrite <- app_assoc. simpl. rewrite Hb.
      replace (st_attempt st + 1 + Z.of_nat k)
        with (st_attempt st + Z.pos (Pos.of_succ_nat k)) by lia.
      f_equal. lia.
    + rewrite Hb. by apply backoff_of_next.
    + intros j Hj. rewrite <- (Hsrv (S j)) by lia. f_equal. lia.
Qed.

(** The timeout that finds [attempt >= max_retries] is re-raised, with no
    further sleep. *)
Lemma timeout_escalates (fuel : nat) (st : fstate) :
  st_pos st <= e ->
  srv (st_requests st) (st_pos st) e = ReplyTimeout ->
  st_attempt st + 1 > max_retries ->
  ∃ st', fetch_loop (S fuel) srv e max_retries st = (Some (Some TimeoutError), st')
         ∧ st_sleeps st' = st_sleeps st ∧ st_pos st' = st_pos st.
Proof.
  intros Hpos Hsrv Hmax. simpl. rewrite decide_True by done.
  unfold fetch_step. rewrite Hsrv. unfold on_timeout. simpl.
  rewrite decide_True by lia. by eexists.
Qed.

(** A 200 or 206 reply whose body iteration ends without an exception (by
    end of body or by [break]) resets [attempt] and [backoff]. *)
Lemma completed_body_resets (st : fstate) (r : response) :
  srv (st_requests st) (st_pos st) e = Reply r ->
  status r = 200 ∨ status r = 206 ->
  let it := iter_chunks e (chunks r) (check_content_range r (count_request st)) in
  it.2 = true ∨ ending r = BodyEOF ->
  fetch_step srv e max_retries st = Next (reset_retry it.1)
  ∧ st_attempt (reset_retry it.1) = 0 ∧ st_backoff (reset_retry it.1) = 1.
Proof.
  intros Hr Hst it Hend. unfold fetch_step. rewrite Hr.
  rewrite bool_decide_eq_false_2 by lia. simpl.
  rewrite decide_False by lia. fold it.
  destruct it as [st2 broke]. simpl in *.
  destruct Hend as [-> | ->]; [done|]. by destruct broke.
Qed.

Lemma check_content_range_retry (r : response) (st : fstate) :
  st_attempt (check_content_range r st) = st_attempt st
  ∧ st_backoff (check_content_range r st) = st_backoff st.
Proof.
  unfold check_content_range. case_decide; [|done].
  destruct (cr_start r); [|done]. by case_decide.
Qed.

(** A 200 or 206 reply whose body times out after its chunks were consumed
    goes to the timeout handler with [attempt] and [backoff] as they were
    before the request: consuming chunks resets nothing. *)
Lemma body_timeout_keeps_attempts (st : fstate) (r : response) :
  srv (st_requests st) (st_pos st) e = Reply r ->
  status r = 200 ∨ status r = 206 ->
  Forall (fun c => c ≠ []) (chunks r) ->
  let it := iter_chunks e (chunks r) (check_content_range r (count_request st)) in
  it.2 = false -> ending r = BodyTimeout ->
  fetch_step srv e max_retries st = on_timeout max_retries it.1
  ∧ st_attempt it.1 = st_attempt st ∧ st_backoff it.1 = st_backoff st.
Proof.
  intros Hr Hst Hne it Hnb Hend. split.
  - unfold fetch_step. rewrite Hr.
    rewrite bool_decide_eq_false_2 by lia. simpl.
    rewrite decide_False by lia. fold it.
    destruct it as [st2 broke]. simpl in *. subst broke. by rewrite Hend.
  - destruct (iter_chunks_writes e (chunks r)
                (check_content_range r (count_request st)) Hne)
      as (_ & _ & (Ha & Hb & _) & _).
    fold it in Ha, Hb.
    destruct (check_content_range_retry r (count_request st)) as [Ha' Hb'].
    rewrite Ha, Hb, Ha', Hb'. done.
Qed.
End retry.

Example delays_from_zero : delays 0 6 = [1; 2; 4; 8; 10; 10].
Proof. reflexivity. Qed.

(** Six timeouts in a row with [max_retries = 5]: five sleeps of 1, 2, 4, 8
    and 10 seconds, then the sixth timeout is re-raised. *)
Example all_requests_time_out :
  let st := (fetch_range 9 (fun _ _ _ => ReplyTimeout) 0 9 5 (replicate 10 x00) 0) in
  st.1 = Raised TimeoutError ∧ st_sleeps st.2 = [1; 2; 4; 8; 10]
  ∧ st_requests st.2 = 6%nat.
Proof. by vm_compute. Qed.

(** C8, as stated, fails on the reset.  With [max_retries = 1]: the first
    request times out (attempt 1, slept 1 second); the second delivers a
    chunk of 4 bytes, which is written, and then times out.  The counter was
    not reset by the chunk: this timeout is attempt 2 and is re-raised.  Had
    the chunk reset the counter, the handler would have slept and gone on.
    It also fails for a drop that is not a timeout: with [max_retries = 5],
    a request that ends in any other exception leaves [fetch_range] at
    once, without a sleep or a second request. *)
Lemma chunk_does_not_reset_attempts :
  let srv : server := fun n pos _ =>
    match n with
    | O => ReplyTimeout
    | 1%nat => Reply (Response 206 (Some pos) [replicate 4 x41] BodyTimeout)
    | _ => Reply (Response 206 (Some pos) [replicate 6 x42] BodyEOF)
    end in
  let res := fetch_range 5 srv 0 9 1 (replicate 10 x00) 0 in
  let err := fetch_range 5 (fun _ _ _ => ReplyError) 0 9 5 (replicate 10 x00) 0 in
  res.1 = Raised TimeoutError
  ∧ st_done res.2 = 4 ∧ st_writes res.2 = [(0, replicate 4 x41)]
  ∧ st_attempt res.2 = 2 ∧ st_sleeps res.2 = [1]
  ∧ (∃ st', on_timeout 1 (reset_retry res.2) = Next st')
  ∧ err.1 = Raised ClientError ∧ st_sleeps err.2 = []
  ∧ st_requests err.2 = 1%nat.
Proof. vm_compute. repeat split. by eexists. Qed.

(** C8, amended.  (1) Requests that time out while the cursor is at or
    before [e] are retried after a sleep; from [attempt = a] the delays are
    [min(2^a, 10)], [min(2^(a+1), 10)], ...: 1, 2, 4, 8, 10, 10 seconds from
    a fresh counter.  (2) The timeout that brings [attempt] above
    [max_retries] is re-raised.  (3) [attempt] and [backoff] go back to 0
    and 1 second when the body iteration of a 200 or 206 reply ends without
    an exception, by end of body or by [break].  (4) They are not reset by
    the consumption of chunks alone: a body that times out after its chunks
    were consumed reaches the timeout handler with [attempt] and [backoff]
    as they were before the request. *)
Theorem retry_backoff_schedule (srv : server) (e max_retries : Z) :
  (∀ (k fuel : nat) st,
     st_pos st <= e -> 0 <= st_attempt st ->
     st_backoff st = backoff_of (st_attempt st) ->
     (∀ j, (j < k)%nat ->
           srv (st_requests st + j)%nat (st_pos st) e = ReplyTimeout) ->
     st_attempt st + Z.of_nat k <= max_retries ->
     fetch_loop (k + fuel) srv e max_retries st
     = fetch_loop fuel srv e max_retries (after_timeouts k st))
  ∧ (∀ (fuel : nat) st,
       st_pos st <= e ->
       srv (st_requests st) (st_pos st) e = ReplyTimeout ->
       st_attempt st + 1 > max_retries ->
       ∃ st', fetch_loop (S fuel) srv e max_retries st
              = (Some (Some TimeoutError), st')
              ∧ st_sleeps st' = st_sleeps st ∧ st_pos st' = st_pos st)
  ∧ (∀ st r,
       srv (st_requests st) (st_pos st) e = Reply r ->
       status r = 200 ∨ status r = 206 ->
       let it := iter_chunks e (chunks r)
                   (check_content_range r (count_request st)) in
       it.2 = true ∨ ending r = BodyEOF ->
       fetch_step srv e max_retries st = Next (reset_retry it.1)
       ∧ st_attempt (reset_retry it.1) = 0 ∧ st_backoff (reset_retry it.1) = 1)
  ∧ (∀ st r,
       srv (st_requests st) (st_pos st) e = Reply r ->
       status r = 200 ∨ status r = 206 ->
       Forall (fun c => c ≠ []) (chunks r) ->
       let it := iter_chunks e (chunks r)
                   (check_content_range r (count_request st)) in
       it.2 = false -> ending r = BodyTimeout ->
       fetch_step srv e max_retries st = on_timeout max_retries it.1
       ∧ st_attempt it.1 = st_attempt st ∧ st_backoff it.1 = st_backoff st).
Proof.
  split; [|split; [|split]].
  - intros k fuel st. apply timeouts_slept_out.
  - intros fuel st. apply timeout_escalates.
  - intros st r. apply completed_body_resets.
  - intros st r. apply body_timeout_keeps_attempts.
Qed.

(** ** Completion blocks under the event loop's schedule (C9) *)

Lemma persisted_done_mark_done (url : string) (size chunk_size : Z)
    (v : validators) (i : Z) (meta : option metadata) :
  persisted_done (Some (mark_done url size chunk_size v i meta))
  = persisted_done meta ∪ {[ i ]}.
Proof.
  unfold persisted_done, mark_done, with_done, load_or_empty, get_done. simpl.
  assert (∀ X : gset Z, list_to_set (merge_sort Z.le (elements X)) = X) as Hs.
  { intros X. apply set_eq. intros x.
    rewrite elem_of_list_to_set, merge_sort_Permutation. apply elem_of_elements. }
  rewrite Hs. f_equal.
  destruct meta as [md|]; simpl; [|done].
  case_bool_decide as Hmd; simpl; [done|].
  by subst md.
Qed.

Section schedule.
Variable url : string.
Variables size chunk_size : Z.
Variable v : validators.

Lemma task_inv_init (st : cstate) :
  (∀ i, c_pc st i = Fetching) -> task_inv url size chunk_size v st.
Proof.
  intros Hinit. repeat split; intros i; rewrite (Hinit i); done.
Qed.

(** A task that does not hold the loop is not inside its block. *)
Local Ltac other_task Hrun :=
  intros;
  match goal with
  | Hj : in_block (c_pc ?st ?j) |- _ => specialize (Hrun j Hj); congruence
  | Hj : c_pc ?st ?j = _ |- _ =>
      let Hb := fresh in
      assert (in_block (c_pc st j)) as Hb by (rewrite Hj; exact I);
      specialize (Hrun j Hb); congruence
  end.

Local Ltac solve_pc Hrun Hl Hu Hf Hpc :=
  first
    [ done
    | by apply Hl | by apply Hu | by apply Hf | by apply Hrun
    | by (intros; subst; eauto)
    | by (intros ? [= <-])
    | by (intros ? [= <-]; subst; rewrite (Hl _ _ Hpc))
    | other_task Hrun ].

Lemma task_step_inv (st st' : cstate) :
  task_inv url size chunk_size v st -> task_step url size chunk_size v st st' ->
  task_inv url size chunk_size v st'.
Proof.
  intros (Hrun & Hl & Hu & Hf) Hstep.
  destruct Hstep as [i st Hr Hpc|i f' st Hr Hpc|i st Hr Hpc|i st Hr Hpc
                    |i st Hr Hpc|i md st Hr Hpc|i md st Hr Hpc];
    unfold task_inv; cbn [c_pc c_meta c_running c_file].
  - (* resume: nobody held the loop, so nobody is inside a block *)
    split; [|done]. intros j Hj. specialize (Hrun j Hj). congruence.
  - (* await: the running task is fetching, so nobody is inside a block *)
    split; [|done]. intros j Hj. specialize (Hrun j Hj).
    assert (j = i) as -> by congruence. rewrite Hpc in Hj. done.
  - (* an exception leaves the task *)
    unfold set_pc. repeat split; intros j; case_decide;
      solve_pc Hrun Hl Hu Hf Hpc.
  - (* fetch_range returns *)
    unfold set_pc. repeat split; intros j; case_decide;
      solve_pc Hrun Hl Hu Hf Hpc.
  - (* load_meta *)
    unfold set_pc. repeat split; intros j; case_decide;
      solve_pc Hrun Hl Hu Hf Hpc.
  - (* the update *)
    unfold set_pc. repeat split; intros j; case_decide;
      solve_pc Hrun Hl Hu Hf Hpc.
  - (* save_meta: the dict saved is the one computed from the side file as
       it still is, so nothing listed there is dropped *)
    rewrite (Hu i md Hpc).
    unfold set_pc. repeat split; intros j; case_decide;
      try solve_pc Hrun Hl Hu Hf Hpc.
    + intros _. subst j. rewrite persisted_done_mark_done.
      apply elem_of_union_r, elem_of_singleton. done.
    + intros Hj. rewrite persisted_done_mark_done.
      apply elem_of_union_l, Hf, Hj.
Qed.

Lemma task_step_keeps_done (st st' : cstate) :
  task_inv url size chunk_size v st -> task_step url size chunk_size v st st' ->
  persisted_done (c_meta st) ⊆ persisted_done (c_meta st').
Proof.
  intros (_ & _ & Hu & _) Hstep.
  destruct Hstep as [i st Hr Hpc|i f' st Hr Hpc|i st Hr Hpc|i st Hr Hpc
                    |i st Hr Hpc|i md st Hr Hpc|i md st Hr Hpc];
    cbn [c_meta]; try done.
  rewrite (Hu i md Hpc), persisted_done_mark_done.
  intros x Hx. by apply elem_of_union_l.
Qed.

Lemma task_steps_inv (st st' : cstate) :
  task_inv url size chunk_size v st ->
  rtc (task_step url size chunk_size v) st st' ->
  task_inv url size chunk_size v st'
  ∧ persisted_done (c_meta st) ⊆ persisted_done (c_meta st').
Proof.
  intros Hinv Hsteps. induction Hsteps as [st|st st1 st' Hstep _ IH]; [done|].
  destruct (IH (task_step_inv _ _ Hinv Hstep)) as [Hinv' Hsub].
  split; [done|]. etrans; [|exact Hsub]. by eapply task_step_keeps_done.
Qed.
End schedule.



(** What the schedule excludes: a completion block that saved a dict
    computed from a load made before another block's save would drop that
    block's index.  Here the block of segment 0 works on the side file as it
    was before segment 1 was marked. *)
Example stale_load_would_drop_entry :
  let url := "http://h/f" in
  let v := Validators (Some "v1") None in
  let before := None in
  let saved_by_1 := Some (mark_done url 10 5 v 1 before) in
  (1 ∈ persisted_done saved_by_1)
  ∧ (1 ∉ persisted_done (Some (with_done url 10 5 v 0 (load_or_empty before))))
  ∧ (1 ∈ persisted_done (Some (with_done url 10 5 v 0 (load_or_empty saved_by_1)))).
Proof.
  intros url v before saved_by_1. subst saved_by_1 before.
  fold (mark_done url 10 5 v 0 None).
  fold (mark_done url 10 5 v 0 (Some (mark_done url 10 5 v 1 None))).
  rewrite !persisted_done_mark_done. unfold persisted_done.
  split; [|split].
  - apply elem_of_union_r, elem_of_singleton. done.
  - rewrite union_empty_l_L, elem_of_singleton. done.
  - apply elem_of_union_l, elem_of_union_r, elem_of_singleton. done.
Qed.

(** ** Downloading from a server that serves the resource *)

Lemma lookup_slice (f : bytes) (lo hi : Z) (j : nat) :
  slice f lo hi !! j =
    if decide (j < Z.to_nat (hi - lo + 1))%nat
    then f !! (Z.to_nat lo + j)%nat else None.
Proof.
  unfold slice. case_decide.
  - by rewrite lookup_take_lt, lookup_drop by done.
  - by rewrite lookup_take_ge by lia.
Qed.

Lemma py_len_slice (f : bytes) (lo hi : Z) :
  0 <= lo <= hi -> hi < py_len f -> py_len (slice f lo hi) = hi - lo + 1.
Proof.
  unfold slice, py_len. intros Hlo Hhi.
  rewrite length_take, length_drop. lia.
Qed.

Lemma fetch_loop_past_end (fuel : nat) (srv : server) (e max_retries : Z)
    (st : fstate) :
  st_pos st > e -> fetch_loop fuel srv e max_retries st = (Some None, st).
Proof. intros Hpos. destruct fuel; simpl; by rewrite decide_False by lia. Qed.

Lemma fetch_loop_next (fuel : nat) (srv : server) (e max_retries : Z)
    (st st' : fstate) :
  st_pos st <= e -> fetch_step srv e max_retries st = Next st' ->
  fetch_loop (S fuel) srv e max_retries st
  = fetch_loop fuel srv e max_retries st'.
Proof. intros Hpos Hstep. simpl. by rewrite decide_True, Hstep by done. Qed.

Lemma concat_nonempty (cs : list bytes) :
  Forall (fun c => c ≠ []) cs -> cs ≠ [] -> 0 < py_len (concat cs).
Proof.
  intros Hne Hcs. destruct Hne as [|c cs Hc _]; [done|].
  simpl. rewrite py_len_app. apply py_len_pos in Hc.
  pose proof (py_len_nonneg (concat cs)). lia.
Qed.

Section honest_fetch.
Variable resource : bytes.
Variable srv : server.
Variables start e max_retries : Z.
Variable file0 : bytes.
Variable done0 : Z.
Hypothesis Hsrv : honest resource srv.
Hypothesis Hstart : 0 <= start.
Hypothesis He : e < py_len resource.
Hypothesis Hlen0 : length file0 = length resource.

(** Each reply brings the cursor forward by what it delivered, so the loop
    ends within [e + 1 - pos] requests, with the segment filled from the
    resource. *)
Lemma honest_fetch_loop (fuel : nat) (st : fstate) :
  start <= st_pos st <= e + 1 ->
  length (st_file st) = length resource ->
  (∀ k : nat,
     st_file st !! k =
       if decide (start <= Z.of_nat k < st_pos st) then resource !! k
       else file0 !! k) ->
  st_done st = done0 + (st_pos st - start) ->
  (Z.to_nat (e + 1 - st_pos st) <= fuel)%nat ->
  ∃ st',
    fetch_loop fuel srv e max_retries st = (Some None, st')
    ∧ st_pos st' = e + 1
    ∧ length (st_file st') = length resource
    ∧ (∀ k : nat,
         st_file st' !! k =
           if decide (start <= Z.of_nat k <= e) then resource !! k
           else file0 !! k)
    ∧ st_done st' = done0 + (e + 1 - start).
Proof.
  revert st. induction fuel as [|fuel IH];
    intros st Hpos Hlen Hfile Hdone Hfuel.
  - exists st. rewrite fetch_loop_past_end by lia.
    assert (st_pos st = e + 1) as Heq by lia. rewrite Heq in *.
    split; [done|]. split; [done|]. split; [done|]. split; [|done].
    intros k. rewrite Hfile. destruct (decide (start <= Z.of_nat k <= e));
      [by rewrite decide_True by lia|by rewrite decide_False by lia].
  - destruct (decide (st_pos st <= e)) as [Hle|Hgt]; last first.
    { exists st. rewrite fetch_loop_past_end by lia.
      assert (st_pos st = e + 1) as Heq by lia. rewrite Heq in *.
      split; [done|]. split; [done|]. split; [done|]. split; [|done].
      intros k. rewrite Hfile. destruct (decide (start <= Z.of_nat k <= e));
        [by rewrite decide_True by lia|by rewrite decide_False by lia]. }
    destruct (Hsrv (st_requests st) (st_pos st) e)
      as (r & Hr & H206 & Hcr & Hne & Hcs & Hbody & Hend); [lia|done|].
    set (st1 := check_content_range r (count_request st)).
    assert (st_pos st1 = st_pos st ∧ st_file st1 = st_file st) as [Hp1 Hf1].
    { subst st1. unfold check_content_range. rewrite decide_True by done.
      rewrite Hcr. simpl. by rewrite decide_False by lia. }
    assert (py_len (st_file st) = py_len resource) as Hlen'
      by (unfold py_len; lia).
    pose proof (concat_nonempty _ Hne Hcs) as Hbpos.
    assert (py_len (concat (chunks r)) <= e - st_pos st + 1) as Hbmax.
    { rewrite <- (py_len_slice resource (st_pos st) e) by lia.
      apply prefix_length in Hbody. unfold py_len. lia. }
    destruct (response_body_effect srv e max_retries st r Hr (or_intror H206) Hne)
      as (Hp & Hd & _ & Hbfile).
    destruct (fetch_step_response srv e max_retries st r Hr (or_intror H206))
      as (_ & _ & _ & _ & Hnext).
    specialize (Hnext (or_intror Hend)). rewrite Hnext in Hp, Hd, Hbfile.
    fold st1 in Hp, Hd, Hbfile, Hnext.
    set (st2 := reset_retry (iter_chunks e (chunks r) st1).1) in *.
    simpl step_state in Hp, Hd, Hbfile.
    rewrite Hp1 in Hp, Hd, Hbfile.
    assert (st_pos st2 = st_pos st + py_len (concat (chunks r))) as Hpos2 by lia.
    destruct (iter_chunks_file e (chunks r) st1 Hne) as [Hl _];
      [lia|rewrite Hf1; lia|].
    rewrite (fetch_loop_next _ _ _ _ _ st2) by done.
    apply IH; [lia| | |lia|lia].
    + simpl. rewrite Hl, Hf1. done.
    + intros k. rewrite Hbfile by lia. rewrite Hfile.
      destruct (decide (Z.to_nat (st_pos st) <= k < Z.to_nat (st_pos st2))%nat)
        as [Hin|Hout].
      * rewrite decide_True by lia.
        destruct (lookup_lt_is_Some_2 (concat (chunks r))
                    (k - Z.to_nat (st_pos st))) as [x Hx];
          [unfold py_len in *; lia|].
        rewrite Hx.
        pose proof (prefix_lookup_Some _ _ _ _ Hx Hbody) as Hs.
        rewrite lookup_slice in Hs. case_decide; [|done].
        rewrite <- Hs. f_equal. lia.
      * destruct (decide (start <= Z.of_nat k < st_pos st));
          [by rewrite decide_True by lia|by rewrite decide_False by lia].
Qed.

Lemma honest_fetch_range (fuel : nat) :
  start <= e -> (Z.to_nat (e - start + 1) <= fuel)%nat ->
  ∃ st, fetch_range fuel srv start e max_retries file0 done0 = (Returned, st)
        ∧ length (st_file st) = length resource
        ∧ (∀ k : nat,
             st_file st !! k =
               if decide (start <= Z.of_nat k <= e) then resource !! k
               else file0 !! k)
        ∧ st_done st = done0 + (e - start + 1).
Proof.
  intros Hse Hfuel.
  destruct (honest_fetch_loop fuel (fetch_init start file0 done0))
    as (st & Hloop & Hpos & Hlen & Hfile & Hdone); simpl; [lia|done| |lia|lia|].
  { intros k. by rewrite decide_False by lia. }
  exists st. unfold fetch_range. rewrite Hloop. unfold final_guard.
  rewrite decide_False by lia. split; [done|]. split; [done|].
  split; [done|lia].
Qed.
End honest_fetch.

Lemma slice_nonempty (resource : bytes) (pos e : Z) :
  0 <= pos <= e -> e < py_len resource -> slice resource pos e ≠ [].
Proof.
  intros Hpos He Hnil. pose proof (py_len_slice resource pos e Hpos He) as Hlen.
  rewrite Hnil in Hlen. unfold py_len in Hlen. simpl in Hlen. lia.
Qed.

Lemma serve_honest (resource : bytes) : honest resource (serve resource).
Proof.
  intros n pos e Hpos He. eexists. split; [reflexivity|]. simpl.
  split; [done|]. split; [done|].
  split; [|split; [done|split; [by rewrite app_nil_r|done]]].
  constructor; [|constructor]. by apply slice_nonempty.
Qed.

Lemma serve_short_honest (resource : bytes) :
  honest resource (serve_short resource).
Proof.
  intros n pos e Hpos He. eexists. split; [reflexivity|]. simpl.
  split; [done|]. split; [done|].
  split; [|split; [done|split; [rewrite app_nil_r; apply prefix_take|done]]].
  constructor; [|constructor].
  pose proof (slice_nonempty resource pos e Hpos He) as Hne.
  destruct (slice resource pos e) as [|b l]; [done|]. done.
Qed.

(** ** The engine's bookkeeping *)

Lemma elem_of_enumerate (ranges : list segment) (i : Z) (seg : segment) :
  (i, seg) ∈ enumerate ranges ↔ 0 <= i ∧ ranges !! Z.to_nat i = Some seg.
Proof.
  unfold enumerate. rewrite list_elem_of_lookup. split.
  - intros [n Hn]. rewrite list_lookup_imap in Hn.
    destruct (ranges !! n) as [seg'|] eqn:Hl; simpl in Hn; [|done].
    injection Hn as <- <-. rewrite Nat2Z.id. split; [lia|done].
  - intros [Hi Hl]. exists (Z.to_nat i).
    rewrite list_lookup_imap, Hl. simpl. do 2 f_equal. lia.
Qed.

Lemma enumerate_indices (ranges : list segment) :
  (enumerate ranges).*1 = Z.of_nat <$> seq 0 (length ranges).
Proof.
  unfold enumerate. rewrite fmap_imap. apply (imap_seq_0 ranges Z.of_nat).
Qed.

Lemma NoDup_enumerate_indices (ranges : list segment) :
  NoDup (enumerate ranges).*1.
Proof.
  rewrite enumerate_indices. apply NoDup_fmap_2; [|apply NoDup_seq].
  intros x y. apply Nat2Z.inj.
Qed.

Lemma fmap_fst_filter {A B} (P : A -> Prop) `{∀ x, Decision (P x)}
    (l : list (A * B)) :
  (filter (fun t => P t.1) l).*1 = filter P l.*1.
Proof.
  induction l as [|[a b] l IH]; [done|].
  rewrite fmap_cons. simpl fst.
  destruct (decide (P a)).
  - rewrite !filter_cons_True by done. by rewrite fmap_cons, IH.
  - by rewrite !filter_cons_False by done.
Qed.

Lemma trusted_done_matches (url : string) (size : Z) (v : validators)
    (meta : option metadata) :
  meta_matches url size v meta ->
  trusted_done meta url size v = persisted_done meta.
Proof.
  destruct meta as [md|]; [|done]. intros (Hurl & Hsize & Hetag & _).
  apply trusted_done_matching; auto.
Qed.

Lemma meta_matches_mark_done (url : string) (size chunk_size : Z)
    (v : validators) (i : Z) (meta : option metadata) :
  meta_matches url size v (Some (mark_done url size chunk_size v i meta)).
Proof. done. Qed.

Lemma already_done_is_Some (ranges : list segment) (done_idx : gset Z) :
  (∀ i, i ∈ done_idx -> is_Some (py_index ranges i)) ->
  is_Some (already_done ranges done_idx).
Proof.
  intros Hidx. unfold already_done.
  assert (Forall (fun i => is_Some (py_index ranges i)) (elements done_idx)) as Hall.
  { apply Forall_forall. intros i Hi. apply Hidx. by apply elem_of_elements. }
  induction Hall as [|i l [[s e] Hi] _ [a IH]]; simpl; [by eexists|].
  rewrite IH, Hi. by eexists.
Qed.

Lemma plan_ranges_chain (fuel : nat) (size c : Z) (ranges : list segment) :
  0 < c -> 0 <= size -> plan_ranges fuel size c = Some ranges ->
  chain c 0 ranges size.
Proof.
  intros Hc Hsize Hplan.
  destruct (plan_loop_chain (Z.to_nat size) size c 0 [] Hc)
    as (rs & Hrs & Hch); [lia..|].
  simpl in Hrs.
  by rewrite (plan_loop_fuel_irrelevant _ _ _ _ _ _ _ _ Hplan Hrs).
Qed.

Lemma enumerate_valid (resource : bytes) (c : Z) (ranges : list segment)
    (t : Z * segment) :
  chain c 0 ranges (py_len resource) -> t ∈ enumerate ranges ->
  valid_task resource t.
Proof.
  destruct t as [i [s e]]. intros Hch Hin.
  apply elem_of_enumerate in Hin as [_ Hl].
  apply list_elem_of_lookup_2 in Hl.
  destruct (chain_elem _ _ _ _ _ Hch Hl) as (? & ? & ? & ?).
  unfold valid_task. simpl. lia.
Qed.

Section honest_run.
Variable resource : bytes.
Variable fuel : nat.
Variable srv : Z -> server.
Variable url : string.
Variables chunk_size max_retries : Z.
Variable v : validators.
Hypothesis Hsrv : ∀ i, honest resource (srv i).
Hypothesis Hfuel : (Z.to_nat (py_len resource) <= fuel)%nat.

Lemma worker_honest (i s e : Z) (st : dstate) :
  valid_task resource (i, (s, e)) ->
  length (d_file st) = length resource ->
  ∃ st',
    worker fuel srv url (py_len resource) chunk_size max_retries v i s e st
    = (Returned, st')
    ∧ length (d_file st') = length resource
    ∧ (∀ k : nat,
         d_file st' !! k =
           if decide (s <= Z.of_nat k <= e) then resource !! k
           else d_file st !! k)
    ∧ d_meta st'
      = Some (mark_done url (py_len resource) chunk_size v i (d_meta st)).
Proof.
  intros [Hs He] Hlen. simpl in Hs, He.
  destruct (honest_fetch_range resource (srv i) s e max_retries
              (d_file st) (d_done st) (Hsrv i) (proj1 Hs) He Hlen fuel)
    as (fst' & Hfetch & Hlen' & Hfile & _); [lia|lia|].
  unfold worker. rewrite Hfetch. by eexists.
Qed.

Lemma run_workers_honest (tasks : list (Z * segment)) (st : dstate) :
  Forall (valid_task resource) tasks ->
  length (d_file st) = length resource ->
  ∃ st',
    run_workers fuel srv url (py_len resource) chunk_size max_retries v
                tasks st = (Returned, st')
    ∧ length (d_file st') = length resource
    ∧ (∀ k : nat, d_file st' !! k = resource !! k
                  ∨ d_file st' !! k = d_file st !! k)
    ∧ (∀ i s e (k : nat),
         (i, (s, e)) ∈ tasks -> s <= Z.of_nat k <= e ->
         d_file st' !! k = resource !! k)
    ∧ persisted_done (d_meta st')
      = persisted_done (d_meta st) ∪ list_to_set tasks.*1
    ∧ (meta_matches url (py_len resource) v (d_meta st) ->
       meta_matches url (py_len resource) v (d_meta st')).
Proof.
  intros Hvalid. revert st.
  induction Hvalid as [|[i [s e]] tasks Ht _ IH]; intros st Hlen.
  - exists st. simpl. split; [done|]. split; [done|]. split; [auto|].
    split; [|split; [by rewrite union_empty_r_L|done]].
    intros i s e k Hin. by apply elem_of_nil in Hin.
  - destruct (worker_honest i s e st Ht Hlen) as (st1 & Hw & Hlen1 & Hf1 & Hm1).
    destruct (IH st1 Hlen1) as (st' & Hrun & Hlen' & Hor & Hcov & Hpd & Hmm).
    exists st'. simpl. rewrite Hw, Hrun.
    split; [done|]. split; [done|]. split; [|split; [|split]].
    + intros k. destruct (Hor k) as [Hk|Hk]; [by left|].
      rewrite Hk, Hf1. case_decide; auto.
    + intros i' s' e' k Hin Hk.
      apply elem_of_cons in Hin as [[= -> -> ->]|Hin]; [|by eapply Hcov].
      destruct (Hor k) as [Hk'|Hk']; [done|].
      rewrite Hk', Hf1. by rewrite decide_True.
    + rewrite Hpd, Hm1, persisted_done_mark_done. simpl.
      by rewrite (assoc_L (∪)).
    + intros _. apply Hmm. rewrite Hm1. apply meta_matches_mark_done.
Qed.
End honest_run.

Section honest_download.
Variable resource : bytes.
Variable fuel : nat.
Variable srv : Z -> server.
Variable url : string.
Variables chunk_size max_retries : Z.
Variable v : validators.
Hypothesis Hsrv : ∀ i, honest resource (srv i).
Hypothesis Hfuel : (Z.to_nat (py_len resource) <= fuel)%nat.
Hypothesis Hchunk : 0 < chunk_size.

(** Workers that cover every segment not listed in [D], run one after the
    other in whatever order, on a file that already holds the resource's
    bytes on the segments listed in [D], leave the whole resource in the
    file. *)
Lemma run_workers_completes (ranges : list segment) (D : gset Z)
    (tasks : list (Z * segment)) (st : dstate) :
  chain chunk_size 0 ranges (py_len resource) ->
  Forall (valid_task resource) tasks ->
  length (d_file st) = length resource ->
  (∀ i seg, (i, seg) ∈ enumerate ranges -> i ∉ D -> (i, seg) ∈ tasks) ->
  (∀ i s e (k : nat),
     i ∈ D -> (i, (s, e)) ∈ enumerate ranges -> s <= Z.of_nat k <= e ->
     d_file st !! k = resource !! k) ->
  ∃ st',
    run_workers fuel srv url (py_len resource) chunk_size max_retries v
                tasks st = (Returned, st')
    ∧ d_file st' = resource.
Proof.
  intros Hch Hvalid Hlen Hall Hheld.
  destruct (run_workers_honest resource fuel srv url chunk_size max_retries v
              Hsrv Hfuel tasks st Hvalid Hlen)
    as (st' & Hrun & Hlen' & Hor & Hcov & _).
  exists st'. split; [done|]. apply list_eq. intros k.
  destruct (decide (k < length resource)%nat) as [Hk|Hk].
  - destruct (chain_cover 0 ranges (py_len resource) (Z.of_nat k) Hch)
      as (n & s & e & Hn & Hse); [unfold py_len; lia|].
    assert ((Z.of_nat n, (s, e)) ∈ enumerate ranges) as Hin.
    { apply elem_of_enumerate. rewrite Nat2Z.id. split; [lia|done]. }
    destruct (decide (Z.of_nat n ∈ D)) as [HD|HD].
    + destruct (Hor k) as [Hk'|Hk']; [done|].
      rewrite Hk'. by eapply Hheld.
    + eapply Hcov; [|exact Hse]. by apply Hall.
  - by rewrite !lookup_ge_None_2 by lia.
Qed.

(** The order in which the launched workers run does not matter. *)
Lemma launched_in_any_order (ranges : list segment) (D : gset Z)
    (tasks : list (Z * segment)) (st : dstate) :
  chain chunk_size 0 ranges (py_len resource) ->
  tasks ≡ₚ tasks_to_launch ranges D ->
  length (d_file st) = length resource ->
  (∀ i s e (k : nat),
     i ∈ D -> (i, (s, e)) ∈ enumerate ranges -> s <= Z.of_nat k <= e ->
     d_file st !! k = resource !! k) ->
  ∃ st',
    run_workers fuel srv url (py_len resource) chunk_size max_retries v
                tasks st = (Returned, st')
    ∧ d_file st' = resource.
Proof.
  intros Hch Hperm Hlen Hheld.
  apply (run_workers_completes ranges D); [done| |done| |done].
  - apply Forall_forall. intros t Ht. rewrite Hperm in Ht.
    apply list_elem_of_filter in Ht as [_ Ht]. by eapply enumerate_valid.
  - intros i seg Hin HD. rewrite Hperm. apply list_elem_of_filter. by split.
Qed.

(** From any file of the right length that already holds the resource's
    bytes on the segments listed as done, the download returns with the
    whole resource in the file, having launched the other segments only. *)
Lemma download_segmented_honest (plan_fuel : nat) (ranges : list segment)
    (file_opt : option bytes) (meta : option metadata) :
  plan_ranges plan_fuel (py_len resource) chunk_size = Some ranges ->
  meta_matches url (py_len resource) v meta ->
  length (preallocate (py_len resource) file_opt) = length resource ->
  (∀ i, i ∈ persisted_done meta -> ∃ seg, (i, seg) ∈ enumerate ranges) ->
  (∀ i s e (k : nat),
     i ∈ persisted_done meta -> (i, (s, e)) ∈ enumerate ranges ->
     s <= Z.of_nat k <= e ->
     preallocate (py_len resource) file_opt !! k = resource !! k) ->
  let r := download_segmented fuel srv url (py_len resource) chunk_size
             max_retries v plan_fuel file_opt meta in
  r_outcome r = Returned ∧ r_file r = Some resource
  ∧ r_launched r
    = filter (fun i => i ∉ persisted_done meta) (enumerate ranges).*1.
Proof.
  intros Hplan Hmeta Hlen Hidx Hheld r. subst r.
  pose proof (plan_ranges_chain _ _ _ _ Hchunk (py_len_nonneg resource) Hplan)
    as Hch.
  unfold download_segmented. rewrite Hplan.
  rewrite (trusted_done_matches _ _ _ _ Hmeta).
  set (D := persisted_done meta) in *.
  set (f0 := preallocate (py_len resource) file_opt) in *.
  destruct (already_done_is_Some ranges D) as [a Ha].
  { intros i Hi. destruct (Hidx i Hi) as [seg Hseg].
    apply elem_of_enumerate in Hseg as [H0 Hl].
    unfold py_index. rewrite decide_True by done. by eexists. }
  rewrite Ha.
  destruct (launched_in_any_order ranges D (tasks_to_launch ranges D)
              (DState f0 meta a) Hch) as (st' & Hrun & Hfile);
    [done|done|done|].
  rewrite Hrun. simpl. split; [done|]. split; [by rewrite Hfile|].
  unfold tasks_to_launch.
  exact (fmap_fst_filter (fun i => i ∉ D) (enumerate ranges)).
Qed.
End honest_download.

Lemma enumerate_functional (ranges : list segment) (i : Z) (seg seg' : segment) :
  (i, seg) ∈ enumerate ranges -> (i, seg') ∈ enumerate ranges -> seg = seg'.
Proof.
  rewrite !elem_of_enumerate. intros [_ H1] [_ H2]. congruence.
Qed.

Lemma length_not_done (ranges : list segment) (completed : list (Z * segment)) :
  NoDup completed -> completed ⊆ enumerate ranges ->
  length (filter (fun i => i ∉ completed.*1) (enumerate ranges).*1)
  = (length ranges - length completed)%nat.
Proof.
  intros Hnd Hsub.
  assert (NoDup completed.*1) as Hnd1.
  { apply NoDup_fmap_fst; [|done]. intros i seg seg' H1 H2.
    eapply enumerate_functional; by apply Hsub. }
  pose proof (filter_app_complement (fun i => i ∈ completed.*1)
                (enumerate ranges).*1) as Hperm.
  apply Permutation_length in Hperm. rewrite length_app in Hperm.
  assert (filter (fun i => i ∈ completed.*1) (enumerate ranges).*1
          ≡ₚ completed.*1) as Hdone.
  { apply NoDup_Permutation; [|done|].
    - apply NoDup_filter, NoDup_enumerate_indices.
    - intros i. rewrite list_elem_of_filter. split; [by intros [? _]|].
      intros Hi. split; [done|].
      apply list_elem_of_fmap in Hi as [[i' seg] [-> Hin]].
      apply list_elem_of_fmap. exists (i', seg). split; [done|]. by apply Hsub. }
  apply Permutation_length in Hdone.
  rewrite length_fmap in Hdone, Hperm. unfold enumerate in Hperm.
  rewrite length_imap in Hperm.
  fold (enumerate ranges) in Hperm. lia.
Qed.



(** ** The plan in closed form *)

Lemma plan_loop_done (fuel : nat) (size c pos : Z) (acc : list segment) :
  size <= pos -> plan_loop fuel size c pos acc = Some acc.
Proof. intros Hpos. destruct fuel; simpl; by rewrite decide_False by lia. Qed.

Lemma ceil_div_one (x c : Z) : 0 < x <= c -> (x + c - 1) / c = 1.
Proof.
  intros Hx. symmetry. apply (Z.div_unique_pos _ _ _ (x - 1)); lia.
Qed.

Lemma ceil_div_step (x c : Z) : 0 < c -> (x + c - 1) / c = (x - c + c - 1) / c + 1.
Proof.
  intros Hc. rewrite <- Z.div_add by lia. f_equal. lia.
Qed.

Lemma plan_loop_closed (fuel : nat) (size c : Z) (k : nat)
    (acc r : list segment) :
  0 < c -> Z.of_nat k * c < size ->
  plan_loop fuel size c (Z.of_nat k * c) acc = Some r ->
  ∃ tail,
    r = acc ++ tail
    ∧ py_len tail = (size - Z.of_nat k * c + c - 1) / c
    ∧ ∀ (j : nat) seg, tail !! j = Some seg ->
        seg = (Z.of_nat (k + j) * c,
               Z.min (size - 1) (Z.of_nat (k + j) * c + c - 1)).
Proof.
  intros Hc. revert k acc.
  induction fuel as [|fuel IH]; intros k acc Hk; simpl;
    rewrite decide_True by done; [done|].
  destruct (decide (Z.of_nat k * c + c < size)) as [Hmore|Hlast].
  - rewrite (Z.min_r (size - 1)) by lia.
    replace (Z.of_nat k * c + c - 1 + 1) with (Z.of_nat (S k) * c) by lia.
    assert (Z.of_nat (S k) * c < size) as Hk' by (clear IH; lia).
    intros Hplan.
    destruct (IH (S k) _ Hk' Hplan) as (tail & -> & Hlen & Hseg).
    eexists (_ :: tail). split; [by rewrite <- app_assoc|]. split.
    + unfold py_len in *. simpl length. rewrite Nat2Z.inj_succ, Hlen.
      rewrite (ceil_div_step (size - Z.of_nat k * c) c Hc).
      replace (size - Z.of_nat (S k) * c) with (size - Z.of_nat k * c - c)
        by (clear IH; lia).
      lia.
    + intros [|j] seg Hj; simpl in Hj.
      * injection Hj as <-. rewrite Nat.add_0_r. f_equal. lia.
      * rewrite (Hseg j seg Hj).
        by replace (S k + j)%nat with (k + S j)%nat by lia.
  - rewrite (Z.min_l (size - 1)) by lia.
    rewrite plan_loop_done by lia. intros [= <-].
    eexists [_]. split; [done|]. split.
    + rewrite ceil_div_one by lia. done.
    + intros [|j] seg Hj; simpl in Hj; [|done].
      injection Hj as <-. rewrite Nat.add_0_r. f_equal. lia.
Qed.

(** X1.  For [size > 0] and [chunk_size > 0] the plan has
    [ceil(size / chunk_size)] segments, and segment [i] runs from
    [i * chunk_size] to [min(size - 1, (i + 1) * chunk_size - 1)]: an index
    recorded in the side file names a byte range that depends on the chunk
    size. *)
Theorem plan_ranges_closed_form (fuel : nat) (size chunk_size : Z)
    (ranges : list segment) :
  0 < size -> 0 < chunk_size ->
  plan_ranges fuel size chunk_size = Some ranges ->
  py_len ranges = (size + chunk_size - 1) / chunk_size
  ∧ ∀ i : nat, (i < length ranges)%nat ->
      ranges !! i
      = Some (Z.of_nat i * chunk_size,
              Z.min (size - 1) (Z.of_nat i * chunk_size + chunk_size - 1)).
Proof.
  intros Hsize Hc Hplan. unfold plan_ranges in Hplan.
  destruct (plan_loop_closed fuel size chunk_size 0 [] ranges Hc)
    as (tail & Heq & Hlen & Hseg); [lia|done|].
  rewrite app_nil_l in Heq. subst tail. split.
  - rewrite Hlen. f_equal. lia.
  - intros i Hi. destruct (lookup_lt_is_Some_2 ranges i Hi) as [seg Hl].
    pose proof (Hseg i seg Hl) as ->. exact Hl.
Qed.

Lemma plan_ranges_closed_form_witness :
  py_len [(0, 2); (3, 5); (6, 8); (9, 9)] = (10 + 3 - 1) / 3
  ∧ ∀ i : nat, (i < length [(0, 2); (3, 5); (6, 8); (9, 9)])%nat ->
      [(0, 2); (3, 5); (6, 8); (9, 9)] !! i
      = Some (Z.of_nat i * 3, Z.min (10 - 1) (Z.of_nat i * 3 + 3 - 1)).
Proof.
  apply (plan_ranges_closed_form 10 10 3); [lia|lia|reflexivity].
Defined.

Lemma plan_loop_stuck (fuel : nat) (size c pos : Z) (acc : list segment) :
  c <= 0 -> pos < size -> plan_loop fuel size c pos acc = None.
Proof.
  intros Hc. revert pos acc.
  induction fuel as [|fuel IH]; intros pos acc Hpos; simpl;
    rewrite decide_True by done; [done|].
  apply IH. lia.
Qed.

(** X2.  With a chunk size of zero (which [-s 0] gives) or below and a
    non-empty resource, the planning loop never ends: the cursor does not
    advance, whatever the number of iterations allowed. *)
Theorem plan_ranges_diverges (fuel : nat) (size chunk_size : Z) :
  0 < size -> chunk_size <= 0 -> plan_ranges fuel size chunk_size = None.
Proof. intros Hsize Hc. by apply plan_loop_stuck. Qed.

Lemma plan_ranges_diverges_witness : plan_ranges 1000 5 0 = None.
Proof. apply (plan_ranges_diverges 1000 5 0); lia. Defined.

(** ** The progress counter *)

Lemma forward_written (e lo hi : Z) (ws : list (Z * bytes)) :
  forward e lo ws hi ->
  py_len (written ws) <= Z.max 0 (e + 1 - lo) ∧ lo + py_len (written ws) <= hi.
Proof.
  unfold written.
  induction 1 as [lo hi Hle|lo off data ws hi Hlo Hne Hend _ IH].
  - unfold py_len. simpl. lia.
  - rewrite fmap_cons, concat_cons, py_len_app. simpl. lia.
Qed.

(** X3.  Whatever the server answers, [fetch_range] adds to [prog.done]
    exactly the number of bytes it wrote to the file: never more than the
    segment holds, and never more than the cursor has advanced. *)
Theorem fetch_range_progress (fuel : nat) (srv : server)
    (start e max_retries : Z) (file : bytes) (done : Z) :
  let st := (fetch_range fuel srv start e max_retries file done).2 in
  st_done st = done + py_len (written (st_writes st))
  ∧ done <= st_done st <= done + Z.max 0 (e - start + 1)
  ∧ st_done st - done <= st_pos st - start.
Proof.
  intros st.
  destruct (fetch_range_inv srv start e file done fuel max_retries)
    as (Hfw & Hdone & _).
  fold st in Hfw, Hdone.
  destruct (forward_written _ _ _ _ Hfw) as [Hmax Hpos].
  pose proof (py_len_nonneg (written (st_writes st))).
  split; [done|]. lia.
Qed.

(** ** Replies without a body *)

Lemma empty_replies_loop (fuel : nat) (srv : server) (start e max_retries : Z)
    (file : bytes) (done : Z) (n : nat) :
  start <= e ->
  (∀ n pos, ∃ r, srv n pos e = Reply r ∧ status r < 400 ∧ cr_start r = None
                 ∧ chunks r = [] ∧ ending r = BodyEOF) ->
  fetch_loop fuel srv e max_retries (FState start 0 1 file done [] [] n)
  = (None, FState start 0 1 file done [] [] (n + fuel)).
Proof.
  intros Hse Hsrv. revert n.
  induction fuel as [|fuel IH]; intros n; simpl; rewrite decide_True by done.
  - by rewrite Nat.add_0_r.
  - unfold fetch_step. simpl.
    destruct (Hsrv n start) as (r & -> & Hst & Hcr & Hcs & Hend).
    unfold raise_for_status.
    rewrite (bool_decide_eq_false_2 (400 <= status r)) by lia.
    rewrite andb_false_r. rewrite decide_False by lia.
    unfold check_content_range. rewrite Hcr, Hcs, Hend.
    replace (n + S fuel)%nat with (S n + fuel)%nat by lia.
    case_decide; simpl; apply IH.
Qed.

(** X4.  Against a server that answers every request with a successful
    status and an empty body that ends normally, [fetch_range] never leaves
    its loop: it issues request after request with the cursor at [start],
    without a sleep, and [max_retries] does not bound it, since [attempt]
    is set back to 0 after every such reply. *)
Theorem empty_replies_never_end (fuel : nat) (srv : server)
    (start e max_retries : Z) (file : bytes) (done : Z) :
  start <= e ->
  (∀ n pos, ∃ r, srv n pos e = Reply r ∧ status r < 400 ∧ cr_start r = None
                 ∧ chunks r = [] ∧ ending r = BodyEOF) ->
  fetch_range fuel srv start e max_retries file done
  = (OutOfFuel, FState start 0 1 file done [] [] fuel).
Proof.
  intros Hse Hsrv. unfold fetch_range, fetch_init.
  by rewrite (empty_replies_loop fuel srv start e max_retries file done 0 Hse Hsrv).
Qed.

Lemma empty_replies_never_end_witness :
  fetch_range 1000 (fun _ _ _ => Reply (Response 200 None [] BodyEOF)) 0 9 0
              (replicate 10 x00) 0
  = (OutOfFuel, FState 0 0 1 (replicate 10 x00) 0 [] [] 1000).
Proof.
  apply (empty_replies_never_end 1000
           (fun _ _ _ => Reply (Response 200 None [] BodyEOF)) 0 9 0
           (replicate 10 x00) 0); [lia|].
  intros n pos. eexists. split; [reflexivity|]. simpl.
  split; [lia|]. done.
Defined.

(** ** Delays, for every server *)

Lemma backoff_of_values (a : Z) : 0 <= a -> backoff_of a ∈ [1; 2; 4; 8; 10].
Proof.
  intros Ha. unfold backoff_of.
  destruct (decide (a = 0)) as [->|]; [set_solver|].
  destruct (decide (a = 1)) as [->|]; [set_solver|].
  destruct (decide (a = 2)) as [->|]; [set_solver|].
  destruct (decide (a = 3)) as [->|]; [set_solver|].
  assert (2 ^ 4 <= 2 ^ a) by (apply Z.pow_le_mono_r; lia).
  rewrite Z.min_r by (change (2 ^ 4) with 16 in *; lia). set_solver.
Qed.


Lemma iter_chunks_bookkeeping (e : Z) (cs : list bytes) (st : fstate) :
  let st' := (iter_chunks e cs st).1 in
  st_attempt st' = st_attempt st ∧ st_backoff st' = st_backoff st
  ∧ st_sleeps st' = st_sleeps st ∧ st_requests st' = st_requests st.
Proof.
  revert st. induction cs as [|chunk cs IH]; intros st; simpl; [done|].
  case_decide; [done|]. case_decide; [done|].
  destruct (IH (write_chunk chunk
                  (Z.min (py_len chunk) (e - st_pos st + 1)) st))
    as (-> & -> & -> & ->).
  done.
Qed.

Lemma check_content_range_bookkeeping (r : response) (st : fstate) :
  let st' := check_content_range r st in
  st_attempt st' = st_attempt st ∧ st_backoff st' = st_backoff st
  ∧ st_sleeps st' = st_sleeps st ∧ st_requests st' = st_requests st.
Proof.
  unfold check_content_range. case_decide; [|done].
  destruct (cr_start r); [|done]. by case_decide.
Qed.


Lemma on_timeout_retry (max_retries : Z) (st : fstate) :
  0 <= st_attempt st -> st_backoff st = backoff_of (st_attempt st) ->
  Forall (fun d => d ∈ [1; 2; 4; 8; 10]) (st_sleeps st) ->
  (length (st_sleeps st) < st_requests st)%nat ->
  match on_timeout max_retries st with
  | Next st' => retry_inv st' ∧ st_requests st' = st_requests st
  | Break st' => False
  | Stop ex st' =>
      retry_end max_retries (Some ex) st' ∧ st_requests st' = st_requests st
  end.
Proof.
  intros Ha Hb Hs Hn. unfold on_timeout. case_decide.
  - split; [|done]. split; [done|]. split; simpl; lia.
  - split; [|done]. split; [simpl; lia|]. split; [|split]; simpl.
    + rewrite Hb. by apply backoff_of_next.
    + apply Forall_app. split; [done|]. constructor; [|done].
      rewrite Hb. by apply backoff_of_values.
    + rewrite length_app. simpl. lia.
Qed.

Lemma fetch_step_retry (srv : server) (e max_retries : Z) (st : fstate) :
  retry_inv st ->
  match fetch_step srv e max_retries st with
  | Next st' => retry_inv st' ∧ st_requests st' = S (st_requests st)
  | Break st' =>
      retry_end max_retries None st' ∧ st_requests st' = S (st_requests st)
  | Stop ex st' =>
      retry_end max_retries (Some ex) st'
      ∧ st_requests st' = S (st_requests st)
  end.
Proof.
  intros (Ha & Hb & Hs & Hn). unfold fetch_step.
  destruct (srv (st_requests st) (st_pos st) e) as [| |r].
  - pose proof (on_timeout_retry max_retries (count_request st)) as Ht.
    simpl in Ht. specialize (Ht Ha Hb Hs ltac:(lia)).
    by destruct (on_timeout max_retries (count_request st)).
  - split; [|done]. split; [done|]. split; simpl; [lia|done].
  - destruct (_ && _).
    { split; [|done]. split; [done|]. split; simpl; [lia|done]. }
    case_decide.
    { split; [|done]. split; [done|]. split; simpl; [lia|done]. }
    destruct (iter_chunks _ _ _) as [st2 broke] eqn:Hit.
    pose proof (iter_chunks_bookkeeping e (chunks r)
                  (check_content_range r (count_request st))) as Hk.
    rewrite Hit in Hk. simpl in Hk.
    destruct (check_content_range_bookkeeping r (count_request st))
      as (Ha1 & Hb1 & Hs1 & Hn1).
    destruct Hk as (Ha2 & Hb2 & Hs2 & Hn2).
    rewrite Ha1 in Ha2. rewrite Hb1 in Hb2. rewrite Hs1 in Hs2.
    rewrite Hn1 in Hn2. simpl in Ha2, Hb2, Hs2, Hn2.
    assert (retry_inv (reset_retry st2) ∧
            st_requests (reset_retry st2) = S (st_requests st)) as Hreset.
    { split; [|done]. split; [done|]. split; [done|]. simpl.
      rewrite Hs2, Hn2. split; [done|lia]. }
    destruct broke; [done|]. destruct (ending r); [done| |].
    + pose proof (on_timeout_retry max_retries st2) as Ht.
      rewrite Ha2, Hb2, Hs2, Hn2 in Ht. specialize (Ht Ha Hb Hs ltac:(lia)).
      by destruct (on_timeout max_retries st2).
    + split; [|done]. rewrite <- Hs2, <- Hn2 in *.
      split; [done|]. split; [lia|done].
Qed.

Lemma fetch_loop_retry (fuel : nat) (srv : server) (e max_retries : Z)
    (st : fstate) :
  retry_inv st ->
  let res := fetch_loop fuel srv e max_retries st in
  retry_end max_retries (default None res.1) res.2
  ∧ (st_requests res.2 <= st_requests st + fuel)%nat.
Proof.
  revert st. induction fuel as [|fuel IH]; intros st Hinv; simpl.
  - destruct Hinv as (? & ? & ? & ?).
    case_decide; simpl; (split; [by repeat split|lia]).
  - case_decide; simpl.
    + pose proof (fetch_step_retry srv e max_retries st Hinv) as Hstep.
      destruct (fetch_step srv e max_retries st) as [st'|st'|ex st'].
      * destruct Hstep as [Hinv' Hn]. destruct (IH st' Hinv') as [Hend Hle].
        split; [done|]. lia.
      * destruct Hstep as [Hend Hn]. simpl. split; [done|lia].
      * destruct Hstep as [Hend Hn]. simpl. split; [done|lia].
    + destruct Hinv as (? & ? & ? & ?). split; [by repeat split|lia].
Qed.

(** X5.  Whatever the server answers: every delay [fetch_range] sleeps is
    1, 2, 4, 8 or 10 seconds; it sleeps at most once per request; the only
    exceptions that leave its loop are a timeout and the errors that are
    not caught, and a timeout leaves it only once [attempt] has passed
    [max_retries]. *)
Theorem fetch_range_delays (fuel : nat) (srv : server)
    (start e max_retries : Z) (file : bytes) (done : Z) :
  let res := fetch_range fuel srv start e max_retries file done in
  Forall (fun d => d ∈ [1; 2; 4; 8; 10]) (st_sleeps res.2)
  ∧ (length (st_sleeps res.2) <= st_requests res.2 <= fuel)%nat
  ∧ (res.1 = Raised TimeoutError -> st_attempt res.2 > max_retries)
  ∧ res.1 ≠ Raised IndexError.
Proof.
  intros res. subst res. unfold fetch_range.
  destruct (fetch_loop_retry fuel srv e max_retries
              (fetch_init start file done)) as [(Hs & Hn & Hex) Hle].
  { split; [simpl; lia|]. split; [done|]. split; [constructor|simpl; lia]. }
  rewrite final_guard_state. simpl in Hle.
  split; [done|]. split; [lia|].
  destruct (fetch_loop _ _ _ _ _) as [[[ex|]|] st]; simpl in *.
  - split; [|by destruct ex]. intros [= ->]. done.
  - case_decide; done.
  - done.
Qed.

(** ** The engine, whatever the servers answer *)

Lemma fetch_range_exn (fuel : nat) (srv : server) (start e max_retries : Z)
    (file : bytes) (done : Z) :
  (fetch_range fuel srv start e max_retries file done).1 ≠ Raised IndexError.
Proof.
  unfold fetch_range.
  destruct (fetch_loop_retry fuel srv e max_retries
              (fetch_init start file done)) as [(_ & _ & Hex) _].
  { split; [simpl; lia|]. split; [done|]. split; [constructor|simpl; lia]. }
  destruct (fetch_loop _ _ _ _ _) as [[[ex|]|] st]; simpl in *.
  - by destruct ex.
  - by case_decide.
  - done.
Qed.

Section any_server.
Variable fuel : nat.
Variable srv : Z -> server.
Variable url : string.
Variables size chunk_size max_retries : Z.
Variable v : validators.

Lemma worker_frame (i s e : Z) (st : dstate) :
  let res := worker fuel srv url size chunk_size max_retries v i s e st in
  (0 <= s -> e < py_len (d_file st) ->
   unchanged_outside s e (d_file st) (d_file res.2))
  ∧ d_done st <= d_done res.2
  ∧ (res.1 = Returned ->
     d_meta res.2 = Some (mark_done url size chunk_size v i (d_meta st)))
  ∧ (res.1 ≠ Returned -> d_meta res.2 = d_meta st)
  ∧ res.1 ≠ Raised IndexError.
Proof.
  intros res. subst res. unfold worker.
  pose proof (fetch_range_inv (srv i) s e (d_file st) (d_done st) fuel
                max_retries) as (Hfw & Hdone & Hfile).
  pose proof (fetch_range_exn fuel (srv i) s e max_retries (d_file st)
                (d_done st)) as Hex.
  destruct (fetch_range _ _ _ _ _ _ _) as [o fst]. simpl in *.
  pose proof (py_len_nonneg (written (st_writes fst))) as Hw.
  assert (0 <= s -> e < py_len (d_file st) ->
          unchanged_outside s e (d_file st) (st_file fst)) as Hout.
  { intros H0 Hfit. by destruct (Hfile H0 Hfit). }
  destruct o as [|ex|]; simpl; (split; [done|]); (split; [lia|]); done.
Qed.

Lemma run_workers_frame (tasks : list (Z * segment)) (st : dstate) :
  Forall (fun t => 0 <= t.2.1 ∧ t.2.2 < py_len (d_file st)) tasks ->
  let res := run_workers fuel srv url size chunk_size max_retries v tasks st in
  length (d_file res.2) = length (d_file st)
  ∧ (∀ k : nat,
       (∀ i s e, (i, (s, e)) ∈ tasks -> ¬ s <= Z.of_nat k <= e) ->
       d_file res.2 !! k = d_file st !! k).
Proof.
  intros Hvalid. revert st Hvalid.
  induction tasks as [|[i [s e]] tasks IH]; intros st Hvalid; simpl; [done|].
  apply Forall_cons in Hvalid as [[H0 Hfit] Hvalid]. simpl in H0, Hfit.
  destruct (worker_frame i s e st) as (Hout & _).
  destruct (Hout H0 Hfit) as [Hlen Hsame].
  destruct (worker _ _ _ _ _ _ _ i s e st) as [o st1] eqn:Hw. simpl in *.
  assert (length (d_file st1) = length (d_file st)
          ∧ ∀ k : nat,
              (∀ i' s' e', (i', (s', e')) ∈ (i, (s, e)) :: tasks ->
                           ¬ s' <= Z.of_nat k <= e') ->
              d_file st1 !! k = d_file st !! k) as Hone.
  { split; [done|]. intros k Hk. apply Hsame.
    specialize (Hk i s e (list_elem_of_here _ _)). lia. }
  destruct o as [|ex|]; simpl; try done.
  destruct (IH st1) as [Hlen' Hsame'].
  { eapply Forall_impl; [exact Hvalid|]. intros t Ht. simpl in Ht.
    unfold py_len in *. lia. }
  split; [lia|]. intros k Hk.
  rewrite Hsame'; [exact (proj2 Hone k Hk)|].
  intros i' s' e' Hin. apply (Hk i'). by apply list_elem_of_further.
Qed.

Lemma run_workers_meta (tasks : list (Z * segment)) (st : dstate) :
  let res := run_workers fuel srv url size chunk_size max_retries v tasks st in
  persisted_done (d_meta st) ⊆ persisted_done (d_meta res.2)
  ∧ d_done st <= d_done res.2
  ∧ res.1 ≠ Raised IndexError
  ∧ (res.1 = Returned ->
     persisted_done (d_meta res.2)
     = persisted_done (d_meta st) ∪ list_to_set tasks.*1
     ∧ (tasks ≠ [] ->
        ∃ i m, d_meta res.2 = Some (mark_done url size chunk_size v i m))).
Proof.
  revert st.
  induction tasks as [|[i [s e]] tasks IH]; intros st; simpl.
  { split; [done|]. split; [lia|]. split; [done|]. intros _.
    split; [by rewrite union_empty_r_L|done]. }
  destruct (worker_frame i s e st) as (_ & Hdone & Hret & Hfail & Hex).
  destruct (worker _ _ _ _ _ _ _ i s e st) as [o st1] eqn:Hw. simpl in *.
  destruct o as [|ex|]; simpl.
  - destruct (IH st1) as (Hsub & Hdone' & Hex' & Hret').
    rewrite (Hret eq_refl) in Hsub, Hret'.
    rewrite persisted_done_mark_done in Hsub, Hret'.
    split; [|split; [lia|split; [done|]]].
    { intros x Hx. apply Hsub. by apply elem_of_union_l. }
    intros Hr. destruct (Hret' Hr) as [Hpd Hform]. split.
    + rewrite Hpd. by rewrite (assoc_L (∪)).
    + intros _. destruct tasks as [|t tasks].
      * exists i, (d_meta st). simpl. by apply Hret.
      * apply Hform. done.
  - rewrite Hfail by done. split; [done|]. split; [lia|]. split; [done|done].
  - rewrite Hfail by done. split; [done|]. split; [lia|]. split; [done|done].
Qed.
End any_server.

Lemma py_index_is_Some {A} (l : list A) (i : Z) :
  is_Some (py_index l i) ↔ - py_len l <= i < py_len l.
Proof.
  unfold py_index, py_len. case_decide; [|case_decide].
  - rewrite lookup_lt_is_Some. lia.
  - rewrite lookup_lt_is_Some. lia.
  - split; [by intros [? ?]|lia].
Qed.

Lemma already_done_None (ranges : list segment) (done_idx : gset Z) :
  already_done ranges done_idx = None ↔
  ∃ i, i ∈ done_idx ∧ (i < - py_len ranges ∨ py_len ranges <= i).
Proof.
  split.
  - intros Hnone.
    destruct (decide (Forall (fun i => - py_len ranges <= i < py_len ranges)
                             (elements done_idx))) as [Hall|Hex].
    + destruct (already_done_is_Some ranges done_idx) as [a Ha].
      { intros i Hi. apply py_index_is_Some.
        rewrite Forall_forall in Hall. apply Hall. by apply elem_of_elements. }
      congruence.
    + apply not_Forall_Exists in Hex; [|apply _].
      apply Exists_exists in Hex as (i & Hi & Hout).
      exists i. split; [by apply elem_of_elements|]. simpl in Hout. lia.
  - intros (i & Hi & Hout). unfold already_done.
    apply elem_of_elements in Hi.
    induction (elements done_idx) as [|j l IH]; [by apply elem_of_nil in Hi|].
    simpl. apply elem_of_cons in Hi as [<-|Hi].
    + destruct (py_index ranges i) as [seg|] eqn:Hidx.
      * assert (is_Some (py_index ranges i)) as Hs by (by eexists).
        apply py_index_is_Some in Hs. lia.
      * by destruct (foldr _ _ l).
    + by rewrite (IH Hi).
Qed.

Lemma trusted_done_cases (meta : option metadata) (url : string) (size : Z)
    (v : validators) :
  trusted_done meta url size v = ∅
  ∨ trusted_done meta url size v = persisted_done meta.
Proof.
  unfold trusted_done, persisted_done. destruct meta as [md|]; [|by left].
  destruct (_ && _); [|by left]. destruct (_ || _); [by right|by left].
Qed.

Lemma trusted_done_persisted (meta : option metadata) (url : string)
    (size : Z) (v : validators) (i : Z) :
  i ∈ trusted_done meta url size v -> i ∈ persisted_done meta.
Proof.
  destruct (trusted_done_cases meta url size v) as [-> | ->]; [|done].
  intros Hi. by apply not_elem_of_empty in Hi.
Qed.

Section any_download.
Variable fuel : nat.
Variable srv : Z -> server.
Variable url : string.
Variables size chunk_size max_retries : Z.
Variable v : validators.
Variable plan_fuel : nat.
Variable file : option bytes.
Variable meta : option metadata.
Variable ranges : list segment.
Hypothesis Hplan : plan_ranges plan_fuel size chunk_size = Some ranges.

Lemma download_segmented_index_error :
  already_done ranges (trusted_done meta url size v) = None ->
  download_segmented fuel srv url size chunk_size max_retries v plan_fuel
                     file meta
  = DResult (Raised IndexError) (Some (preallocate size file)) meta 0 [].
Proof. intros Ha. unfold download_segmented. by rewrite Hplan, Ha. Qed.

Lemma download_segmented_run (a : Z) :
  already_done ranges (trusted_done meta url size v) = Some a ->
  let tasks := tasks_to_launch ranges (trusted_done meta url size v) in
  let res := run_workers fuel srv url size chunk_size max_retries v tasks
               (DState (preallocate size file) meta a) in
  let r := download_segmented fuel srv url size chunk_size max_retries v
             plan_fuel file meta in
  r_outcome r = res.1 ∧ r_file r = Some (d_file res.2)
  ∧ r_progress r = d_done res.2 ∧ r_launched r = tasks.*1
  ∧ r_meta r = match res.1 with
               | Returned => cleanup ranges (d_meta res.2)
               | _ => d_meta res.2
               end.
Proof.
  intros Ha tasks res r. subst r. unfold download_segmented.
  rewrite Hplan, Ha. fold tasks. fold res.
  destruct res as [o st]. by destruct o.
Qed.

Lemma launched_valid :
  0 < chunk_size -> py_len (preallocate size file) = size ->
  Forall (fun t => 0 <= t.2.1 ∧ t.2.2 < py_len (preallocate size file))
         (tasks_to_launch ranges (trusted_done meta url size v)).
Proof.
  intros Hc Hlen. pose proof (py_len_nonneg (preallocate size file)) as H0.
  assert (0 <= size) as Hsz by lia.
  pose proof (plan_ranges_chain _ _ _ _ Hc Hsz Hplan) as Hch.
  apply Forall_forall. intros [i [s e]] Hin.
  apply list_elem_of_filter in Hin as [_ Hin].
  apply elem_of_enumerate in Hin as [_ Hl].
  apply list_elem_of_lookup_2 in Hl.
  destruct (chain_elem _ _ _ _ _ Hch Hl) as (? & ? & ? & ?). simpl. lia.
Qed.
End any_download.

Lemma download_segmented_frame (fuel plan_fuel : nat) (srv : Z -> server)
    (url : string) (size chunk_size max_retries : Z) (v : validators)
    (file : option bytes) (meta : option metadata) (ranges : list segment) :
  0 < chunk_size ->
  plan_ranges plan_fuel size chunk_size = Some ranges ->
  py_len (preallocate size file) = size ->
  let r := download_segmented fuel srv url size chunk_size max_retries v
             plan_fuel file meta in
  (∀ i, i ∈ r_launched r -> i ∉ trusted_done meta url size v)
  ∧ ∃ f, r_file r = Some f
         ∧ length f = length (preallocate size file)
         ∧ ∀ k : nat,
             (∀ i s e, (i, (s, e)) ∈ enumerate ranges ->
                       i ∉ trusted_done meta url size v ->
                       ¬ s <= Z.of_nat k <= e) ->
             f !! k = preallocate size file !! k.
Proof.
  intros Hc Hplan Hlen r. subst r.
  set (D := trusted_done meta url size v) in *.
  destruct (already_done ranges D) as [a|] eqn:Ha; last first.
  { rewrite (download_segmented_index_error _ _ _ _ _ _ _ _ _ _ _ Hplan Ha).
    simpl. split; [by intros i ?%elem_of_nil|]. by eexists. }
  destruct (download_segmented_run fuel srv url size chunk_size max_retries v
              plan_fuel file meta ranges Hplan a Ha)
    as (_ & Hfile & _ & Hl & _).
  fold D in Hfile, Hl. rewrite Hl, Hfile. split.
  - intros i Hin. apply list_elem_of_fmap in Hin as [[i' seg] [-> Hin]].
    by apply list_elem_of_filter in Hin as [Hnot _].
  - eexists. split; [done|].
    pose proof (launched_valid url size chunk_size v plan_fuel file meta
                  ranges Hplan Hc Hlen) as Hvalid.
    fold D in Hvalid.
    destruct (run_workers_frame fuel srv url size chunk_size max_retries v
                (tasks_to_launch ranges D)
                (DState (preallocate size file) meta a) Hvalid)
      as [Hlen' Hsame].
    split; [done|]. intros k Hk. apply Hsame.
    intros j s' e' Hin.
    apply list_elem_of_filter in Hin as [Hnot Hin]. by apply (Hk j).
Qed.



(** X7.  [download_segmented] raises [IndexError] exactly when the trusted
    side file lists an index outside [-M, M) for a plan of [M] segments (as
    after a run with a smaller chunk size): [ranges[i]] fails while the
    bytes already done are added up, before any worker is launched, and the
    side file is left as it was. *)
Theorem index_error_iff (fuel plan_fuel : nat) (srv : Z -> server)
    (url : string) (size chunk_size max_retries : Z) (v : validators)
    (file : option bytes) (meta : option metadata) (ranges : list segment) :
  plan_ranges plan_fuel size chunk_size = Some ranges ->
  let r := download_segmented fuel srv url size chunk_size max_retries v
             plan_fuel file meta in
  (r_outcome r = Raised IndexError ↔
   ∃ i, i ∈ trusted_done meta url size v
        ∧ (i < - py_len ranges ∨ py_len ranges <= i))
  ∧ (r_outcome r = Raised IndexError ->
     r_launched r = [] ∧ r_meta r = meta
     ∧ r_file r = Some (preallocate size file)).
Proof.
  intros Hplan r. subst r. rewrite <- already_done_None.
  destruct (already_done ranges (trusted_done meta url size v)) as [a|] eqn:Ha.
  - destruct (download_segmented_run fuel srv url size chunk_size max_retries
                v plan_fuel file meta ranges Hplan a Ha) as (Ho & _).
    rewrite Ho.
    destruct (run_workers_meta fuel srv url size chunk_size max_retries v
                (tasks_to_launch ranges (trusted_done meta url size v))
                (DState (preallocate size file) meta a)) as (_ & _ & Hex & _).
    split; [split; [done|discriminate]|done].
  - rewrite (download_segmented_index_error _ _ _ _ _ _ _ _ _ _ _ Hplan Ha).
    simpl. done.
Qed.

Lemma index_error_iff_witness :
  let meta := Some (Metadata (Some "http://h/f") (Some 10) (Some 2)
                             (Some "v1") None (Some [4])) in
  let r := download_segmented 10 (fun _ => serve (replicate 10 x2a))
             "http://h/f" 10 3 5 (Validators (Some "v1") None) 10 None meta in
  (r_outcome r = Raised IndexError ↔
   ∃ i, i ∈ trusted_done meta "http://h/f" 10 (Validators (Some "v1") None)
        ∧ (i < - py_len [(0, 2); (3, 5); (6, 8); (9, 9)]
           ∨ py_len [(0, 2); (3, 5); (6, 8); (9, 9)] <= i))
  ∧ (r_outcome r = Raised IndexError ->
     r_launched r = [] ∧ r_meta r = meta
     ∧ r_file r = Some (preallocate 10 None)).
Proof.
  intros meta.
  apply (index_error_iff 10 10 (fun _ => serve (replicate 10 x2a))
           "http://h/f" 10 3 5 (Validators (Some "v1") None) None meta
           [(0, 2); (3, 5); (6, 8); (9, 9)]).
  reflexivity.
Defined.

Lemma nothing_to_launch (ranges : list segment) (D : gset Z) :
  (∀ i, 0 <= i < py_len ranges -> i ∈ D) -> tasks_to_launch ranges D = [].
Proof.
  intros Hall. unfold tasks_to_launch.
  destruct (filter _ _) as [|[i seg] l] eqn:Hf; [done|].
  assert ((i, seg) ∈ filter (fun t : Z * segment => t.1 ∉ D) (enumerate ranges))
    as Hin by (rewrite Hf; apply list_elem_of_here).
  apply list_elem_of_filter in Hin as [Hnot Hin]. simpl in Hnot.
  apply elem_of_enumerate in Hin as [Hi Hl].
  apply lookup_lt_Some in Hl. exfalso. apply Hnot, Hall.
  unfold py_len. lia.
Qed.

(** X8.  When the trusted side file lists every segment of the plan, no
    worker is launched and no request is sent: the download returns at once
    with the file as it is (created full of zero bytes if it was missing),
    whatever the server would have answered. *)
Theorem complete_resume_sends_nothing (fuel plan_fuel : nat)
    (srv : Z -> server) (url : string) (size chunk_size max_retries : Z)
    (v : validators) (file : option bytes) (meta : option metadata)
    (ranges : list segment) :
  plan_ranges plan_fuel size chunk_size = Some ranges ->
  (∀ i, 0 <= i < py_len ranges -> i ∈ trusted_done meta url size v) ->
  (∀ i, i ∈ trusted_done meta url size v ->
        - py_len ranges <= i < py_len ranges) ->
  let r := download_segmented fuel srv url size chunk_size max_retries v
             plan_fuel file meta in
  r_outcome r = Returned ∧ r_launched r = []
  ∧ r_file r = Some (preallocate size file)
  ∧ r_meta r = cleanup ranges meta.
Proof.
  intros Hplan Hall Hin r. subst r.
  destruct (already_done_is_Some ranges (trusted_done meta url size v))
    as [a Ha].
  { intros i Hi. apply py_index_is_Some. by apply Hin. }
  destruct (download_segmented_run fuel srv url size chunk_size max_retries v
              plan_fuel file meta ranges Hplan a Ha)
    as (Ho & Hf & _ & Hl & Hm).
  rewrite (nothing_to_launch ranges _ Hall) in Ho, Hf, Hl, Hm.
  simpl in Ho, Hf, Hl, Hm. done.
Qed.

Lemma complete_resume_sends_nothing_witness :
  let meta := Some (Metadata (Some "http://h/f") (Some 10) (Some 3)
                             (Some "v1") None (Some [0; 1; 2; 3])) in
  let r := download_segmented 10 (fun _ _ _ _ => ReplyError) "http://h/f"
             10 3 5 (Validators (Some "v1") None) 10 None meta in
  r_outcome r = Returned ∧ r_launched r = []
  ∧ r_file r = Some (preallocate 10 None)
  ∧ r_meta r = cleanup [(0, 2); (3, 5); (6, 8); (9, 9)] meta.
Proof.
  intros meta.
  apply (complete_resume_sends_nothing 10 10 (fun _ _ _ _ => ReplyError)
           "http://h/f" 10 3 5 (Validators (Some "v1") None) None meta
           [(0, 2); (3, 5); (6, 8); (9, 9)]).
  - reflexivity.
  - intros i Hi. change (py_len _) with 4 in Hi.
    assert (i = 0 ∨ i = 1 ∨ i = 2 ∨ i = 3) as [->|[->|[->| ->]]] by lia;
      vm_compute; reflexivity.
  - intros i Hi. change (py_len _) with 4.
    change (trusted_done _ _ _ _) with (list_to_set [0; 1; 2; 3] : gset Z) in Hi.
    rewrite elem_of_list_to_set in Hi.
    repeat (apply elem_of_cons in Hi as [->|Hi]; [lia|]).
    by apply elem_of_nil in Hi.
Defined.



(** ** Cleaning up, and what a stale side file does *)

Lemma size_indices (S : gset Z) (M : nat) :
  (∀ i, i ∈ S ↔ 0 <= i < Z.of_nat M) -> size S = M.
Proof.
  intros HS.
  assert (S = list_to_set (Z.of_nat <$> seq 0 M)) as ->.
  { apply set_eq. intros i. rewrite HS, elem_of_list_to_set, list_elem_of_fmap.
    split.
    - intros Hi. exists (Z.to_nat i). split; [lia|].
      apply elem_of_seq. lia.
    - intros (n & -> & Hn). apply elem_of_seq in Hn. lia. }
  rewrite size_list_to_set, length_fmap, length_seq; [done|].
  apply NoDup_fmap_2; [|apply NoDup_seq]. intros x y. apply Nat2Z.inj.
Qed.

Lemma cleanup_complete (ranges : list segment) (md : metadata) :
  truthy (Some md) = true -> NoDup (get_done md) ->
  (∀ i, i ∈ persisted_done (Some md) ↔ 0 <= i < py_len ranges) ->
  cleanup ranges (Some md) = None.
Proof.
  intros Ht Hnd Hall. unfold cleanup. rewrite Ht. simpl.
  rewrite bool_decide_eq_true_2; [done|].
  unfold py_len. f_equal.
  rewrite <- (size_list_to_set (C:=gset Z)) by done.
  by apply size_indices.
Qed.

Lemma NoDup_get_done_mark_done (url : string) (size chunk_size : Z)
    (v : validators) (i : Z) (meta : option metadata) :
  NoDup (get_done (mark_done url size chunk_size v i meta)).
Proof.
  unfold mark_done, with_done, get_done. simpl.
  rewrite merge_sort_Permutation. apply NoDup_elements.
Qed.

(** X10.  A download that returns normally removes the side file, provided
    the side file it found was absent, or was written for this URL, size and
    validators, listed indices of the plan only and none twice. *)
Theorem success_removes_side_file (fuel plan_fuel : nat) (srv : Z -> server)
    (url : string) (size chunk_size max_retries : Z) (v : validators)
    (file : option bytes) (meta : option metadata) (ranges : list segment) :
  plan_ranges plan_fuel size chunk_size = Some ranges ->
  meta_matches url size v meta ->
  (∀ i, i ∈ persisted_done meta -> 0 <= i < py_len ranges) ->
  NoDup (default [] (get_done <$> meta)) ->
  let r := download_segmented fuel srv url size chunk_size max_retries v
             plan_fuel file meta in
  r_outcome r = Returned -> r_meta r = None.
Proof.
  intros Hplan Hmm Hvalid Hnd r. subst r.
  pose proof (trusted_done_matches _ _ _ _ Hmm) as HD.
  destruct (already_done_is_Some ranges (trusted_done meta url size v))
    as [a Ha].
  { intros i Hi. apply py_index_is_Some. rewrite HD in Hi.
    specialize (Hvalid i Hi). lia. }
  destruct (download_segmented_run fuel srv url size chunk_size max_retries v
              plan_fuel file meta ranges Hplan a Ha)
    as (Ho & _ & _ & _ & Hm).
  rewrite Ho, Hm. clear Ho Hm. rewrite HD.
  set (tasks := tasks_to_launch ranges (persisted_done meta)).
  assert (∀ i, i ∈ persisted_done meta ∪ list_to_set tasks.*1
               ↔ 0 <= i < py_len ranges) as Hall.
  { intros i. rewrite elem_of_union, elem_of_list_to_set. split.
    - intros [Hi|Hi]; [by apply Hvalid|].
      apply list_elem_of_fmap in Hi as [[i' seg] [-> Hin]].
      apply list_elem_of_filter in Hin as [_ Hin].
      apply elem_of_enumerate in Hin as [H0 Hl].
      apply lookup_lt_Some in Hl. unfold py_len. simpl. lia.
    - intros Hi.
      destruct (decide (i ∈ persisted_done meta)) as [Hin|Hout];
        [by left|right].
      destruct (lookup_lt_is_Some_2 ranges (Z.to_nat i)) as [seg Hseg];
        [unfold py_len in Hi; lia|].
      apply list_elem_of_fmap. exists (i, seg). split; [done|].
      apply list_elem_of_filter. split; [done|].
      apply elem_of_enumerate. split; [lia|done]. }
  destruct (run_workers_meta fuel srv url size chunk_size max_retries v
              tasks (DState (preallocate size file) meta a))
    as (_ & _ & _ & Hret).
  destruct tasks as [|t tasks'] eqn:Htasks.
  - (* nothing was launched: the side file is the one found *)
    simpl. intros _. destruct meta as [md|]; [|done].
    apply cleanup_complete.
    + destruct Hmm as [Hurl _]. by eapply truthy_with_url.
    + exact Hnd.
    + intros i. rewrite <- Hall. rewrite fmap_nil, list_to_set_nil.
      by rewrite union_empty_r_L.
  - destruct (run_workers _ _ _ _ _ _ _ _ _) as [o st]. simpl in *.
    intros ->. destruct (Hret eq_refl) as [Hpd [i [m Hform]]]; [done|].
    rewrite Hform in *.
    apply cleanup_complete; [done|apply NoDup_get_done_mark_done|].
    intros j. rewrite Hpd. apply Hall.
Qed.

Lemma success_removes_side_file_witness :
  let meta := Some (Metadata (Some "http://h/f") (Some 10) (Some 3)
                             (Some "v1") None (Some [2])) in
  let r := download_segmented 10 (fun _ => serve (replicate 10 x2a))
             "http://h/f" 10 3 5 (Validators (Some "v1") None) 10 None meta in
  r_outcome r = Returned ∧ r_meta r = None.
Proof.
  intros meta.
  assert (r_outcome (download_segmented 10 (fun _ => serve (replicate 10 x2a))
             "http://h/f" 10 3 5 (Validators (Some "v1") None) 10 None meta)
          = Returned) as Hret by (vm_compute; reflexivity).
  split; [exact Hret|].
  apply (success_removes_side_file 10 10 (fun _ => serve (replicate 10 x2a))
           "http://h/f" 10 3 5 (Validators (Some "v1") None) None meta
           [(0, 2); (3, 5); (6, 8); (9, 9)]).
  - reflexivity.
  - done.
  - intros i Hi. change (py_len _) with 4.
    change (persisted_done meta) with (list_to_set [2] : gset Z) in Hi.
    rewrite elem_of_list_to_set in Hi.
    apply list_elem_of_singleton in Hi as ->. lia.
  - apply NoDup_singleton.
  - exact Hret.
Defined.

Lemma trusted_done_mark_done (url : string) (size chunk_size : Z)
    (v : validators) (i : Z) (meta : option metadata) :
  trusted_done (Some (mark_done url size chunk_size v i meta)) url size v
  = persisted_done meta ∪ {[ i ]}.
Proof.
  rewrite (trusted_done_matches url size v); [|apply meta_matches_mark_done].
  apply persisted_done_mark_done.
Qed.

(** X11.  The completion block merges the [done] list it finds in the side
    file into the dict it saves under the current URL, size and validators,
    whether or not the resume decision of this run trusted that list.  Once
    one worker of a run has completed, a rerun with the same parameters
    therefore trusts every index the old side file listed, also after a
    validator mismatch that made this run start over. *)
Theorem stale_entries_revalidated (fuel : nat) (srv : Z -> server)
    (url : string) (size chunk_size max_retries : Z) (v : validators)
    (i s e : Z) (st : dstate) :
  let res := worker fuel srv url size chunk_size max_retries v i s e st in
  res.1 = Returned ->
  trusted_done (d_meta res.2) url size v
  = persisted_done (d_meta st) ∪ {[ i ]}.
Proof.
  intros res Hret.
  destruct (worker_frame fuel srv url size chunk_size max_retries v i s e st)
    as (_ & _ & Hmeta & _).
  fold res in Hmeta. rewrite (Hmeta Hret). apply trusted_done_mark_done.
Qed.

Lemma stale_entries_revalidated_witness :
  let old := Some (Metadata (Some "http://h/f") (Some 10) (Some 3)
                            (Some "v1") (Some "d1") (Some [2; 3])) in
  let v := Validators (Some "v2") (Some "d2") in
  let st := DState (replicate 10 x2a) old 0 in
  let res := worker 10 (fun _ => serve (replicate 10 x01)) "http://h/f"
               10 3 5 v 0 0 2 st in
  trusted_done old "http://h/f" 10 v = ∅
  ∧ res.1 = Returned
  ∧ trusted_done (d_meta res.2) "http://h/f" 10 v
    = persisted_done (d_meta st) ∪ {[ 0 ]}.
Proof.
  intros old v st res.
  assert (res.1 = Returned) as Hret by (vm_compute; reflexivity).
  split; [vm_compute; reflexivity|]. split; [exact Hret|].
  exact (stale_entries_revalidated 10 (fun _ => serve (replicate 10 x01))
           "http://h/f" 10 3 5 v 0 0 2 st Hret).
Defined.

Lemma plan_ranges_nonempty (fuel : nat) (size c : Z) (ranges : list segment) :
  0 < size -> plan_ranges fuel size c = Some ranges -> ranges ≠ [].
Proof.
  intros Hsize. unfold plan_ranges.
  assert (∀ f pos acc r, plan_loop f size c pos acc = Some r ->
                         (length acc <= length r)%nat) as Hmono.
  { induction f as [|f IH]; intros pos acc r; simpl; case_decide.
    - done.
    - by intros [= <-].
    - intros Hr. apply IH in Hr. rewrite length_app in Hr. simpl in Hr. lia.
    - by intros [= <-]. }
  destruct fuel as [|fuel]; simpl; rewrite decide_True by done; [done|].
  intros Hr. apply Hmono in Hr. simpl in Hr. intros ->. simpl in Hr. lia.
Qed.


Lemma launch_all (ranges : list segment) :
  tasks_to_launch ranges ∅ = enumerate ranges.
Proof.
  unfold tasks_to_launch.
  induction (enumerate ranges) as [|t l IH]; [done|].
  rewrite filter_cons_True by apply not_elem_of_empty. by rewrite IH.
Qed.

Lemma cleanup_keeps (ranges : list segment) (md : metadata) :
  py_len (get_done md) ≠ py_len ranges ->
  cleanup ranges (Some md) = Some md.
Proof.
  intros Hne. unfold cleanup.
  rewrite (bool_decide_eq_false_2 (py_len _ = _)) by done.
  by rewrite andb_false_r.
Qed.

Lemma length_get_done_mark_done (url : string) (size chunk_size : Z)
    (v : validators) (i : Z) (meta : option metadata) :
  length (get_done (mark_done url size chunk_size v i meta))
  = base.size (persisted_done (Some (mark_done url size chunk_size v i meta))).
Proof.
  rewrite persisted_done_mark_done.
  unfold mark_done, with_done, get_done. simpl.
  rewrite merge_sort_Permutation.
  unfold persisted_done, load_or_empty, get_done.
  destruct meta as [md|]; simpl; [|done].
  case_bool_decide; [done|]. by subst md.
Qed.

(** X12.  A side file that lists an index outside [-M, M) for the plan of
    this run, and that this run does not trust, outlives the run: when all
    [M] workers have completed the side file lists more than [M] indices, so
    the clean-up leaves it in place, now stamped with this run's URL, size
    and validators.  Every later run with the same parameters trusts it and
    raises [IndexError] before it launches a worker. *)
Theorem stale_index_blocks_rerun (fuel fuel' plan_fuel : nat)
    (srv srv' : Z -> server) (url : string) (size chunk_size max_retries : Z)
    (v : validators) (file : option bytes) (meta : option metadata)
    (ranges : list segment) (j : Z) :
  0 < size ->
  plan_ranges plan_fuel size chunk_size = Some ranges ->
  j ∈ persisted_done meta ->
  j < - py_len ranges ∨ py_len ranges <= j ->
  let r := download_segmented fuel srv url size chunk_size max_retries v
             plan_fuel file meta in
  r_outcome r = Returned ->
  (∃ md, r_meta r = Some md ∧ j ∈ get_done md)
  ∧ let r' := download_segmented fuel' srv' url size chunk_size max_retries v
                plan_fuel (r_file r) (r_meta r) in
    r_outcome r' = Raised IndexError ∧ r_launched r' = [].
Proof.
  intros Hsize Hplan Hj Hout r Hret. subst r.
  destruct (already_done ranges (trusted_done meta url size v)) as [a|] eqn:Ha;
    last first.
  { by rewrite (download_segmented_index_error _ _ _ _ _ _ _ _ _ _ _ Hplan Ha)
      in Hret. }
  assert (trusted_done meta url size v = ∅) as HD.
  { destruct (trusted_done_cases meta url size v) as [HD|HD]; [done|].
    exfalso. assert (already_done ranges (trusted_done meta url size v) = None)
      as Hnone; [|congruence].
    apply already_done_None. exists j. by rewrite HD. }
  destruct (download_segmented_run fuel srv url size chunk_size max_retries v
              plan_fuel file meta ranges Hplan a Ha)
    as (Ho & Hf & _ & _ & Hm).
  rewrite Ho in Hret. rewrite Hm, Hret, Hf. clear Ho Hm Hf.
  rewrite HD, launch_all in *.
  destruct (run_workers_meta fuel srv url size chunk_size max_retries v
              (enumerate ranges) (DState (preallocate size file) meta a))
    as (_ & _ & _ & Hmeta).
  destruct (Hmeta Hret) as [Hpd (i & m & Hform)].
  { pose proof (plan_ranges_nonempty _ _ _ _ Hsize Hplan) as Hne.
    destruct ranges; [done|]. done. }
  simpl in Hpd. rewrite Hform in *.
  set (md := mark_done url size chunk_size v i m) in *.
  assert (j ∈ persisted_done (Some md)) as Hjmd
    by (rewrite Hpd; by apply elem_of_union_l).
  assert (py_len (get_done md) ≠ py_len ranges) as Hlen.
  { pose proof (length_get_done_mark_done url size chunk_size v i m) as Hlg.
    fold md in Hlg. unfold py_len. rewrite Hlg, Hpd. clear Hlg.
    set (T := list_to_set (enumerate ranges).*1 : gset Z).
    assert (base.size T = length ranges) as HT.
    { apply size_indices. intros x. subst T.
      rewrite elem_of_list_to_set, enumerate_indices, list_elem_of_fmap.
      split.
      - intros (n & -> & Hn). apply elem_of_seq in Hn. lia.
      - intros Hx. exists (Z.to_nat x). split; [lia|]. apply elem_of_seq. lia. }
    assert (j ∉ T) as HjT.
    { subst T. rewrite elem_of_list_to_set, enumerate_indices, list_elem_of_fmap.
      intros (n & -> & Hn). apply elem_of_seq in Hn.
      unfold py_len in Hout. lia. }
    assert (base.size ({[ j ]} ∪ T) <= base.size (persisted_done meta ∪ T))%nat
      as Hle.
    { apply subseteq_size. intros x Hx.
      apply elem_of_union in Hx as [Hx|Hx].
      - apply elem_of_singleton in Hx as ->. by apply elem_of_union_l.
      - by apply elem_of_union_r. }
    rewrite size_union in Hle
      by (intros x Hx%elem_of_singleton HxT; by subst x).
    rewrite size_singleton in Hle. lia. }
  rewrite (cleanup_keeps _ _ Hlen). split.
  - exists md. split; [done|].
    unfold persisted_done in Hjmd. by apply elem_of_list_to_set in Hjmd.
  - simpl.
    rewrite (download_segmented_index_error fuel' srv' url size chunk_size
               max_retries v plan_fuel _ (Some md) ranges Hplan); [done|].
    apply already_done_None. exists j. split; [|done].
    subst md. rewrite trusted_done_mark_done.
    by rewrite persisted_done_mark_done in Hjmd.
Qed.

Lemma stale_index_blocks_rerun_witness :
  let old := Some (Metadata (Some "http://h/f") (Some 10) (Some 2)
                            (Some "v1") (Some "d1") (Some [4])) in
  let v := Validators (Some "v2") (Some "d2") in
  let srv : Z -> server := fun _ => serve (replicate 10 x01) in
  let r := download_segmented 10 srv "http://h/f" 10 3 5 v 10 None old in
  r_outcome r = Returned
  ∧ (∃ md, r_meta r = Some md ∧ 4 ∈ get_done md)
  ∧ let r' := download_segmented 10 srv "http://h/f" 10 3 5 v 10
                (r_file r) (r_meta r) in
    r_outcome r' = Raised IndexError ∧ r_launched r' = [].
Proof.
  intros old v srv r.
  assert (r_outcome r = Returned) as Hret by (vm_compute; reflexivity).
  split; [exact Hret|].
  apply (stale_index_blocks_rerun 10 10 10 srv srv "http://h/f" 10 3 5 v None
           old [(0, 2); (3, 5); (6, 8); (9, 9)] 4).
  - lia.
  - reflexivity.
  - vm_compute. reflexivity.
  - right. unfold py_len. simpl. lia.
  - exact Hret.
Defined.



(** ** The [done] list the completion block writes *)



Lemma strictly_sorted (l : list Z) :
  StronglySorted Z.le l -> NoDup l -> StronglySorted Z.lt l.
Proof.
  induction 1 as [|x l Hs IH Hall]; intros Hnd; [constructor|].
  apply NoDup_cons in Hnd as [Hx Hnd]. constructor; [by apply IH|].
  rewrite Forall_forall in Hall |- *. intros y Hy.
  specialize (Hall y Hy). assert (x ≠ y) by (by intros ->). lia.
Qed.

(** X14.  The [done] list that the completion block saves is strictly
    ascending - sorted, no index twice - and holds the index of the segment
    just completed together with exactly the indices the side file listed
    before, duplicates of a hand-edited list removed. *)
Theorem mark_done_sorted (url : string) (size chunk_size : Z) (v : validators)
    (i : Z) (meta : option metadata) :
  let done := get_done (mark_done url size chunk_size v i meta) in
  StronglySorted Z.lt done
  ∧ ∀ x, x ∈ done ↔ x ∈ persisted_done meta ∨ x = i.
Proof.
  intros done. split.
  - apply strictly_sorted.
    + apply StronglySorted_merge_sort; apply _.
    + apply NoDup_get_done_mark_done.
  - intros x.
    pose proof (persisted_done_mark_done url size chunk_size v i meta) as Hpd.
    unfold persisted_done at 1 in Hpd. fold done in Hpd.
    rewrite <- (elem_of_list_to_set (C:=gset Z)), Hpd.
    by rewrite elem_of_union, elem_of_singleton.
Qed.

Lemma load_or_empty_mark_done (url : string) (size chunk_size : Z)
    (v : validators) (i : Z) (meta : option metadata) :
  load_or_empty (Some (mark_done url size chunk_size v i meta))
  = mark_done url size chunk_size v i meta.
Proof. unfold load_or_empty. by rewrite (truthy_with_url _ url). Qed.

Lemma mark_done_twice (url : string) (size chunk_size : Z) (v : validators)
    (i j : Z) (meta : option metadata) :
  mark_done url size chunk_size v i
            (Some (mark_done url size chunk_size v j meta))
  = Metadata (Some url) (Some size) (Some chunk_size) (v_etag v)
             (v_last_modified v)
             (Some (merge_sort Z.le
                      (elements (persisted_done meta ∪ {[ j ]} ∪ {[ i ]})))).
Proof.
  unfold mark_done at 1. rewrite load_or_empty_mark_done.
  unfold with_done. do 4 f_equal.
  change (list_to_set (get_done (mark_done url size chunk_size v j meta)))
    with (persisted_done (Some (mark_done url size chunk_size v j meta))).
  by rewrite persisted_done_mark_done.
Qed.

(** X15.  The side file does not depend on the order in which two workers
    complete, and marking a segment a second time changes nothing. *)
Theorem mark_done_commutes (url : string) (size chunk_size : Z)
    (v : validators) (i j : Z) (meta : option metadata) :
  mark_done url size chunk_size v i
            (Some (mark_done url size chunk_size v j meta))
  = mark_done url size chunk_size v j
              (Some (mark_done url size chunk_size v i meta))
  ∧ mark_done url size chunk_size v i
              (Some (mark_done url size chunk_size v i meta))
    = mark_done url size chunk_size v i meta.
Proof.
  split.
  - rewrite !mark_done_twice. do 4 f_equal.
    rewrite <- !(assoc_L (∪)). f_equal. apply (comm_L (∪)).
  - rewrite mark_done_twice. unfold mark_done, with_done.
    do 4 f_equal. rewrite <- (assoc_L (∪)), (idemp_L (∪)).
    unfold persisted_done, load_or_empty, get_done.
    destruct meta as [md|]; simpl; [|done].
    case_bool_decide; [done|]. by subst md.
Qed.

(** ** The single stream *)

Lemma write_stream_concat (cs : list bytes) : write_stream cs = concat cs.
Proof.
  unfold write_stream.
  assert (∀ acc, foldl (fun f chunk : bytes => f ++ chunk) acc cs
                 = acc ++ concat cs) as H; [|apply H].
  induction cs as [|c cs IH]; intros acc; simpl; [by rewrite app_nil_r|].
  by rewrite IH, app_assoc.
Qed.

Lemma delays_snoc (a : Z) (k : nat) :
  delays a (S k) = delays a k ++ [backoff_of (a + Z.of_nat k)].
Proof.
  revert a. induction k as [|k IH]; intros a.
  - simpl. by rewrite Z.add_0_r.
  - change (delays a (S (S k))) with (backoff_of a :: delays (a + 1) (S k)).
    rewrite IH.
    change (delays a (S k)) with (backoff_of a :: delays (a + 1) k).
    rewrite <- app_comm_cons.
    by replace (a + 1 + Z.of_nat k) with (a + Z.of_nat (S k)) by lia.
Qed.

Lemma single_try_cases (rp : reply) (file : option bytes) :
  match (single_try rp file).2 with
  | None =>
      ∃ r, rp = Reply r ∧ status r < 400 ∧ ending r = BodyEOF
           ∧ (single_try rp file).1 = Some (concat (chunks r))
  | Some _ =>
      succeeds rp = false
      ∧ ∀ r, rp = Reply r -> status r < 400 ->
             (single_try rp file).1 = Some (concat (chunks r))
  end.
Proof.
  destruct rp as [| |r]; simpl; [by split..|].
  unfold raise_for_status. case_bool_decide as Hst; simpl.
  - split; [done|]. intros r' [= <-]. lia.
  - rewrite write_stream_concat.
    destruct (ending r) eqn:Hend; simpl.
    + exists r. split; [done|]. split; [lia|]. done.
    + split; [done|]. by intros r' [= <-].
    + split; [done|]. by intros r' [= <-].
Qed.

Lemma single_loop_spec (fuel : nat) (srv : nat -> reply) (max_retries : Z)
    (st : sstate) :
  single_inv srv max_retries st ->
  let res := single_loop fuel srv max_retries st in
  match res.1 with
  | Returned =>
      ∃ n r, ss_requests res.2 = S n ∧ srv n = Reply r ∧ status r < 400
             ∧ ending r = BodyEOF
             ∧ ss_file res.2 = Some (concat (chunks r))
             ∧ ss_sleeps res.2 = delays 0 n
             ∧ (Z.of_nat n <= Z.max 0 max_retries)
             ∧ ∀ m, (m < n)%nat -> succeeds (srv m) = false
  | Raised _ =>
      ss_requests res.2 = S (Z.to_nat max_retries)
      ∧ ss_sleeps res.2 = delays 0 (Z.to_nat max_retries)
      ∧ (∀ m, (m <= Z.to_nat max_retries)%nat -> succeeds (srv m) = false)
      ∧ ∀ r, srv (Z.to_nat max_retries) = Reply r -> status r < 400 ->
             ss_file res.2 = Some (concat (chunks r))
  | OutOfFuel =>
      (ss_requests st + fuel <= Z.to_nat max_retries)%nat
  end.
Proof.
  revert st. induction fuel as [|fuel IH]; intros st Hinv; simpl.
  { destruct Hinv as (Ha & Hmax & _). lia. }
  destruct Hinv as (Ha & Hmax & Hb & Hs & Hfail).
  pose proof (single_try_cases (srv (ss_requests st)) (ss_file st)) as Htry.
  destruct (single_try _ _) as [file [ex|]]; simpl in *.
  - destruct Htry as [Hf Hfile].
    case_decide as Hgive; simpl.
    + assert (ss_requests st = Z.to_nat max_retries) as Hn by lia.
      rewrite <- Hn. split; [done|]. split; [done|]. split; [|done].
      intros m Hm. destruct (decide (m = ss_requests st)) as [->|];
        [done|apply Hfail; lia].
    + specialize (IH (SState (ss_attempt st + 1)
                             (Z.min (ss_backoff st * 2) 10) file
                             (ss_sleeps st ++ [ss_backoff st])
                             (S (ss_requests st)))).
      simpl in IH.
      assert (single_inv srv max_retries
                (SState (ss_attempt st + 1)
                        (Z.min (ss_backoff st * 2) 10) file
                        (ss_sleeps st ++ [ss_backoff st])
                        (S (ss_requests st)))) as Hinv'.
      { unfold single_inv.
        cbn [ss_attempt ss_backoff ss_file ss_sleeps ss_requests].
        split; [lia|]. split; [lia|].
        split; [rewrite Hb; apply backoff_of_next; lia|].
        split.
        - rewrite delays_snoc, Hs, Hb, Ha. done.
        - intros m Hm. destruct (decide (m = ss_requests st)) as [->|];
            [done|apply Hfail; lia]. }
      specialize (IH Hinv').
      destruct (single_loop _ _ _ _) as [o st']. simpl in *.
      destruct o; [done|done|lia].
  - destruct Htry as (r & Hr & Hst & Hend & Hfile).
    exists (ss_requests st), r. rewrite Hfile.
    split; [done|]. split; [done|]. split; [done|]. split; [done|].
    split; [done|]. split; [done|]. split; [lia|done].
Qed.

Lemma single_inv_init (srv : nat -> reply) (max_retries : Z)
    (file : option bytes) :
  single_inv srv max_retries (SState 0 1 file [] 0).
Proof.
  split; [done|]. split; [simpl; lia|]. split; [done|]. split; [done|].
  intros n Hn. simpl in Hn. lia.
Qed.

(** X16.  When [download_single] returns, the file holds exactly the body
    of the one reply that succeeded: what the file held before, and what
    the attempts that failed had written, is gone.  Every earlier reply
    failed and was slept out with the delays 1, 2, 4, 8, 10, 10, ...
    seconds. *)
Theorem single_stream_returns (fuel : nat) (srv : nat -> reply)
    (max_retries : Z) (file : option bytes) (st : sstate) :
  download_single fuel srv max_retries file = (Returned, st) ->
  ∃ n r, ss_requests st = S n ∧ srv n = Reply r ∧ status r < 400
         ∧ ending r = BodyEOF
         ∧ ss_file st = Some (concat (chunks r))
         ∧ ss_sleeps st = delays 0 n
         ∧ Z.of_nat n <= Z.max 0 max_retries
         ∧ ∀ m, (m < n)%nat -> succeeds (srv m) = false.
Proof.
  intros Hrun. unfold download_single in Hrun.
  pose proof (single_loop_spec fuel srv max_retries (SState 0 1 file [] 0)
                (single_inv_init srv max_retries file)) as Hspec.
  by rewrite Hrun in Hspec.
Qed.

Lemma single_stream_returns_witness :
  let srv : nat -> reply := fun n =>
    match n with
    | O => Reply (Response 200 None [[x01; x02]] BodyError)
    | _ => Reply (Response 200 None [[x01; x02]; [x03]] BodyEOF)
    end in
  ∃ st, download_single 5 srv 3 (Some [xff; xff; xff; xff; xff]) = (Returned, st)
  ∧ ∃ n r, ss_requests st = S n ∧ srv n = Reply r ∧ status r < 400
           ∧ ending r = BodyEOF
           ∧ ss_file st = Some (concat (chunks r))
           ∧ ss_sleeps st = delays 0 n
           ∧ Z.of_nat n <= Z.max 0 3
           ∧ ∀ m, (m < n)%nat -> succeeds (srv m) = false.
Proof.
  intros srv. eexists. split; [reflexivity|].
  apply (single_stream_returns 5 srv 3 (Some [xff; xff; xff; xff; xff])).
  reflexivity.
Defined.

(** X17.  When [download_single] gives up, it has made [max_retries + 1]
    requests (one, for a negative [max_retries]), all of which failed, and
    has slept after each but the last.  The output file is not restored: if
    the last reply had a status below 400, the file holds the part of its
    body that arrived before the failure. *)
Theorem single_stream_gives_up (fuel : nat) (srv : nat -> reply)
    (max_retries : Z) (file : option bytes) (ex : exn) (st : sstate) :
  download_single fuel srv max_retries file = (Raised ex, st) ->
  ss_requests st = S (Z.to_nat max_retries)
  ∧ ss_sleeps st = delays 0 (Z.to_nat max_retries)
  ∧ (∀ m, (m <= Z.to_nat max_retries)%nat -> succeeds (srv m) = false)
  ∧ ∀ r, srv (Z.to_nat max_retries) = Reply r -> status r < 400 ->
         ss_file st = Some (concat (chunks r)).
Proof.
  intros Hrun. unfold download_single in Hrun.
  pose proof (single_loop_spec fuel srv max_retries (SState 0 1 file [] 0)
                (single_inv_init srv max_retries file)) as Hspec.
  by rewrite Hrun in Hspec.
Qed.

Lemma single_stream_gives_up_witness :
  let srv : nat -> reply := fun n =>
    Reply (Response 200 None [[x01; x02]] BodyTimeout) in
  ∃ st, download_single 5 srv 2 (Some [xff; xff; xff; xff; xff])
        = (Raised TimeoutError, st)
  ∧ ss_requests st = S (Z.to_nat 2)
  ∧ ss_sleeps st = delays 0 (Z.to_nat 2)
  ∧ (∀ m, (m <= Z.to_nat 2)%nat -> succeeds (srv m) = false)
  ∧ ∀ r, srv (Z.to_nat 2) = Reply r -> status r < 400 ->
         ss_file st = Some (concat (chunks r)).
Proof.
  intros srv. eexists. split; [reflexivity|].
  apply (single_stream_gives_up 5 srv 2 (Some [xff; xff; xff; xff; xff])
           TimeoutError).
  reflexivity.
Defined.

(** X18.  [download_single] ends within [max_retries + 1] requests, and it
    returns normally exactly when one of the first [max_retries + 1] replies
    (the first, for a negative [max_retries]) has a status below 400 and a
    body that ends normally. *)
Theorem single_stream_terminates (fuel : nat) (srv : nat -> reply)
    (max_retries : Z) (file : option bytes) :
  (Z.to_nat max_retries < fuel)%nat ->
  let res := download_single fuel srv max_retries file in
  res.1 ≠ OutOfFuel
  ∧ (ss_requests res.2 <= S (Z.to_nat max_retries))%nat
  ∧ (res.1 = Returned ↔
     ∃ n, (n <= Z.to_nat max_retries)%nat ∧ succeeds (srv n) = true).
Proof.
  intros Hfuel res. subst res. unfold download_single.
  pose proof (single_loop_spec fuel srv max_retries (SState 0 1 file [] 0)
                (single_inv_init srv max_retries file)) as Hspec.
  destruct (single_loop _ _ _ _) as [o st]. simpl in *.
  destruct o as [|ex|].
  - destruct Hspec as (n & r & Hn & Hr & Hst & Hend & _ & _ & Hle & _).
    split; [done|]. split; [lia|]. split; [|done]. intros _.
    exists n. split; [lia|]. rewrite Hr. simpl. unfold raise_for_status.
    rewrite bool_decide_eq_false_2 by lia. by rewrite Hend.
  - destruct Hspec as (Hn & _ & Hfail & _).
    split; [done|]. split; [lia|]. split; [done|].
    intros (n & Hle & Hok). rewrite (Hfail n Hle) in Hok. done.
  - lia.
Qed.

Lemma single_stream_terminates_witness :
  let srv : nat -> reply := fun n =>
    match n with
    | O => ReplyTimeout
    | _ => Reply (Response 200 None [[x01; x02]; [x03]] BodyEOF)
    end in
  let res := download_single 5 srv 3 None in
  res.1 ≠ OutOfFuel
  ∧ (ss_requests res.2 <= S (Z.to_nat 3))%nat
  ∧ (res.1 = Returned ↔
     ∃ n, (n <= Z.to_nat 3)%nat ∧ succeeds (srv n) = true).
Proof.
  intros srv. apply (single_stream_terminates 5 srv 3 None). simpl. lia.
Defined.

(** ** Probing and the choice of mode *)

Lemma plan_ranges_length (fuel : nat) (size c : Z) (ranges : list segment) :
  0 < size -> 0 < c -> plan_ranges fuel size c = Some ranges ->
  py_len ranges = (size + c - 1) / c.
Proof.
  intros Hsize Hc Hplan.
  destruct (plan_loop_closed fuel size c 0 [] ranges Hc)
    as (tail & Heq & Hlen & _); [lia|done|].
  rewrite app_nil_l in Heq. subst tail. rewrite Hlen. f_equal. lia.
Qed.

Section mode_facts.
Variable py_int : string -> option Z.

Lemma choose_mode_segmented (size : py_size) (supports : bool)
    (chunk_size : Z) (v v' : validators) (n : Z) :
  choose_mode size supports chunk_size v = Segmented n v' ->
  size = SizeInt n ∧ supports = true ∧ n ≠ 0 ∧ n > chunk_size ∧ v' = v.
Proof.
  unfold choose_mode. destruct size as [|m|s].
  - done.
  - case_bool_decide; simpl; [|done]. destruct supports; simpl; [|done].
    case_bool_decide; [|done]. by intros [= -> ->].
  - by destruct (_ && _).
Qed.

Lemma supports_ranges_true (p : probe_obs) :
  supports_ranges p = true -> p = ProbeReply 206.
Proof.
  unfold supports_ranges, probe_ranges. destruct p as [|st]; [done|].
  case_decide as H206; [by subst|]. case_decide; [done|].
  by case_bool_decide.
Qed.

(** X19.  [download_url] takes the segmented engine only when the range
    probe was answered 206 and the size is not zero and above the chunk
    size, so that, for a positive chunk size, the plan has at least two
    segments.  The validators it passes on are the ETag and Last-Modified
    of the HEAD reply, and both are [None] when the HEAD request failed,
    also when the size then came from the GET request. *)
Theorem segmented_mode_conditions (h : head_obs) (p : probe_obs)
    (g : get_obs) (chunk_size n : Z) (v : validators) :
  decide_mode py_int h p g chunk_size = Segmented n v ->
  p = ProbeReply 206 ∧ n ≠ 0 ∧ n > chunk_size
  ∧ (∀ st cl etag last_mod,
       h = HeadReply st cl etag last_mod -> st < 400 ->
       v = Validators etag last_mod)
  ∧ (h = HeadRaises
     ∨ (∃ st cl etag last_mod, h = HeadReply st cl etag last_mod ∧ 400 <= st) ->
     v = Validators None None)
  ∧ (0 < chunk_size ->
     ∀ fuel ranges, plan_ranges fuel n chunk_size = Some ranges ->
                    2 <= py_len ranges).
Proof.
  intros Hmode. unfold decide_mode in Hmode.
  destruct (head_probe py_int h) as [size v0] eqn:Hhead.
  assert (∃ size', choose_mode size' (supports_ranges p) chunk_size v0
                   = Segmented n v) as [size' Hchoose].
  { destruct size as [|m|s]; [|by eexists..].
    destruct (sized_get py_int g); [done|by eexists]. }
  apply choose_mode_segmented in Hchoose as (_ & Hsup & Hn0 & Hgt & ->).
  split; [by apply supports_ranges_true|]. split; [done|]. split; [done|].
  split; [|split].
  - intros st cl etag last_mod -> Hst. simpl in Hhead.
    rewrite bool_decide_eq_false_2 in Hhead by lia.
    destruct cl as [s|]; [destruct (py_int s)|]; by injection Hhead as _ <-.
  - intros [->|(st & cl & etag & last_mod & -> & Hst)]; simpl in Hhead.
    + by injection Hhead as _ <-.
    + rewrite bool_decide_eq_true_2 in Hhead by done.
      by injection Hhead as _ <-.
  - intros Hc fuel ranges Hplan.
    assert (0 < n) as Hn by lia.
    rewrite (plan_ranges_length _ _ _ _ Hn Hc Hplan).
    apply Z.div_le_lower_bound; lia.
Qed.

End mode_facts.


Lemma segmented_mode_conditions_witness :
  let h := HeadReply 200 (Some "10") (Some "v1") None in
  let p := ProbeReply 206 in
  let v := Validators (Some "v1") None in
  p = ProbeReply 206 ∧ 10 ≠ 0 ∧ 10 > 3
  ∧ (∀ st cl etag last_mod,
       h = HeadReply st cl etag last_mod -> st < 400 ->
       v = Validators etag last_mod)
  ∧ (h = HeadRaises
     ∨ (∃ st cl etag last_mod, h = HeadReply st cl etag last_mod ∧ 400 <= st) ->
     v = Validators None None)
  ∧ (0 < 3 ->
     ∀ fuel ranges, plan_ranges fuel 10 3 = Some ranges -> 2 <= py_len ranges).
Proof.
  intros h p v.
  apply (segmented_mode_conditions int_of_example h p GetRaises 3 10 v).
  reflexivity.
Defined.

Lemma choose_mode_raises (size : py_size) (supports : bool)
    (chunk_size : Z) (v : validators) (e : url_exn) :
  choose_mode size supports chunk_size v = UrlRaises e ->
  e = UrlTypeError ∧ supports = true ∧ ∃ s, size = SizeStr s ∧ s ≠ "".
Proof.
  unfold choose_mode. destruct size as [|n|s].
  - done.
  - by destruct (_ && _).
  - case_bool_decide; simpl; [|done]. destruct supports; simpl; [|done].
    intros [= <-]. split; [done|]. split; [done|]. by exists s.
Qed.

Lemma head_probe_str (py_int : string -> option Z) (h : head_obs)
    (s : string) (v : validators) :
  head_probe py_int h = (SizeStr s, v) ->
  ∃ st etag last_mod,
    h = HeadReply st (Some s) etag last_mod ∧ st < 400 ∧ py_int s = None.
Proof.
  destruct h as [|st cl etag last_mod]; simpl; [done|].
  case_bool_decide; [done|]. destruct cl as [s'|]; [|done].
  destruct (py_int s') eqn:Hint; [done|]. intros [= -> _].
  exists st, etag, last_mod. split; [done|]. split; [lia|done].
Qed.

(** X20.  [download_url] fails before it downloads anything in two cases
    only: the HEAD request gave no size and the GET request made for the
    size fails (or carries a Content-Length that [int] rejects); or the HEAD
    reply carried a non-empty Content-Length that [int] rejected - the
    exception is swallowed, but [size] keeps the string - and the probe was
    answered 206, so that line 383 compares a string with a number.  A HEAD
    request or a probe that fails is by itself never fatal. *)
Theorem decide_mode_raises (py_int : string -> option Z) (h : head_obs)
    (p : probe_obs) (g : get_obs) (chunk_size : Z) (e : url_exn) :
  decide_mode py_int h p g chunk_size = UrlRaises e ↔
  ((head_probe py_int h).1 = SizeNone ∧ sized_get py_int g = inl e)
  ∨ (e = UrlTypeError
     ∧ p = ProbeReply 206
     ∧ ∃ st s etag last_mod,
         h = HeadReply st (Some s) etag last_mod ∧ st < 400
         ∧ py_int s = None ∧ s ≠ "").
Proof.
  unfold decide_mode. split.
  - destruct (head_probe py_int h) as [size v] eqn:Hh.
    destruct size as [|n|s]; cbv beta iota.
    + destruct (sized_get py_int g) as [e'|n]; [intros [= ->]; by left|].
      intros Hc. by apply choose_mode_raises in Hc as (_ & _ & s & ? & _).
    + intros Hc. by apply choose_mode_raises in Hc as (_ & _ & s & ? & _).
    + intros Hc.
      apply choose_mode_raises in Hc as (-> & Hsup & s' & [= <-] & Hs).
      apply head_probe_str in Hh as (st & etag & last_mod & -> & Hst & Hint).
      right. split; [done|]. split; [by apply supports_ranges_true|].
      by exists st, s, etag, last_mod.
  - intros [[Hsize Hget]|(-> & -> & st & s & etag & last_mod & -> & Hst & Hint & Hs)].
    + destruct (head_probe py_int h) as [size v]. simpl in Hsize. subst size.
      by rewrite Hget.
    + simpl. rewrite bool_decide_eq_false_2 by lia. rewrite Hint. simpl.
      by rewrite bool_decide_eq_true_2 by done.
Qed.

(** X21.  With a chunk size of zero or below, a known positive size and a
    server that answers the probe with 206, [download_url] takes the
    segmented engine and never gets past its planning loop: no file is
    created and no request for data is sent, however long it runs. *)
Theorem nonpositive_chunk_size_hangs (py_int : string -> option Z)
    (st : Z) (cl : string) (etag last_mod : option string) (g : get_obs)
    (fuel plan_fuel : nat) (seg_srv : Z -> server) (single_srv : nat -> reply)
    (url : string) (chunk_size retries n : Z) (file : option bytes)
    (meta : option metadata) :
  st < 400 -> py_int cl = Some n -> 0 < n -> chunk_size <= 0 ->
  download_url py_int (HeadReply st (Some cl) etag last_mod) (ProbeReply 206)
               g fuel seg_srv single_srv url chunk_size retries plan_fuel
               file meta
  = ViaSegmented (DResult OutOfFuel file meta 0 []).
Proof.
  intros Hst Hint Hn Hc. unfold download_url, decide_mode. simpl.
  rewrite bool_decide_eq_false_2 by lia. rewrite Hint. simpl.
  rewrite !bool_decide_eq_true_2 by lia. simpl.
  unfold download_segmented, plan_ranges.
  by rewrite plan_loop_stuck.
Qed.

Lemma nonpositive_chunk_size_hangs_witness :
  download_url int_of_example (HeadReply 200 (Some "10") None None)
               (ProbeReply 206) GetRaises 1000
               (fun _ => serve (replicate 10 x01)) (fun _ => ReplyError)
               "http://h/f" 0 5 1000 None None
  = ViaSegmented (DResult OutOfFuel None None 0 []).
Proof.
  apply (nonpositive_chunk_size_hangs int_of_example 200 "10" None None
           GetRaises 1000 1000 (fun _ => serve (replicate 10 x01))
           (fun _ => ReplyError) "http://h/f" 0 5 10 None None);
    [lia|reflexivity|lia|lia].
Defined.

Lemma single_first_reply (fuel : nat) (srv : nat -> reply) (max_retries : Z)
    (file : option bytes) (r : response) :
  srv 0%nat = Reply r -> status r < 400 -> ending r = BodyEOF ->
  download_single (S fuel) srv max_retries file
  = (Returned, SState 0 1 (Some (concat (chunks r))) [] 1).
Proof.
  intros Hr Hst Hend. unfold download_single. simpl. rewrite Hr. simpl.
  unfold raise_for_status. rewrite bool_decide_eq_false_2 by lia.
  by rewrite Hend, write_stream_concat.
Qed.



(** ** The side file's name, and the units of a size *)

Lemma string_length_app (s1 s2 : string) :
  String.length (s1 +:+ s2) = (String.length s1 + String.length s2)%nat.
Proof. induction s1 as [|c s1 IH]; simpl; [done|]. by rewrite IH. Qed.

Lemma string_app_inj_r (s1 s2 t : string) : s1 +:+ t = s2 +:+ t -> s1 = s2.
Proof.
  revert s2. induction s1 as [|c s1 IH]; intros [|c' s2] Heq; simpl in Heq.
  - done.
  - apply (f_equal String.length) in Heq. simpl in Heq.
    rewrite !string_length_app in Heq. simpl in Heq. lia.
  - apply (f_equal String.length) in Heq. simpl in Heq.
    rewrite !string_length_app in Heq. simpl in Heq. lia.
  - injection Heq as -> Heq. f_equal. by apply IH.
Qed.

(** X23.  Two output paths never share a side file, and the side file is
    never the output file itself. *)
Theorem meta_path_injective (p q : string) :
  (meta_path p = meta_path q -> p = q) ∧ meta_path p ≠ p.
Proof.
  unfold meta_path. split; [apply string_app_inj_r|].
  intros Heq. apply (f_equal String.length) in Heq.
  rewrite string_length_app in Heq. simpl in Heq. lia.
Qed.

(** X24.  Of the twenty unit strings that the regular expression of
    [human_to_bytes] lets through on ASCII input, fourteen have a
    multiplier, each a power of 1024 that depends on the first letter only;
    for the six others - those with an [i] but no [b] after it, and [ib] -
    [human_to_bytes] raises "Unknown unit". *)
Theorem unit_table :
  length unit_candidates = 20%nat
  ∧ filter (fun u => unit_multiplier u = None) unit_candidates
    = ["i"; "ib"; "ki"; "mi"; "gi"; "ti"]
  ∧ ∀ u m, unit_multiplier u = Some m ->
           u ∈ unit_candidates
           ∧ m = if String.prefix "k" u then 1024
                 else if String.prefix "m" u then 1024 ^ 2
                 else if String.prefix "g" u then 1024 ^ 3
                 else if String.prefix "t" u then 1024 ^ 4
                 else 1.
Proof.
  split; [reflexivity|]. split; [by vm_compute|].
  intros u m Hu. unfold unit_multiplier, multipliers in Hu.
  apply elem_of_list_to_map_2 in Hu.
  repeat (apply elem_of_cons in Hu as [[= -> <-]|Hu];
          [split; [vm_compute; set_solver|reflexivity]|]).
  by apply elem_of_nil in Hu.
Qed.

(** ** The progress counter of a download *)

Lemma seg_total_chain (c lo hi : Z) (rs : list segment) :
  chain c lo rs hi -> seg_total rs = hi - lo.
Proof.
  induction 1 as [lo|lo e rs hi _ _ _ IH]; [unfold seg_total; simpl; lia|].
  change (seg_total ((lo, e) :: rs)) with (e - lo + 1 + seg_total rs). lia.
Qed.

Lemma seg_total_perm (l1 l2 : list segment) :
  l1 ≡ₚ l2 -> seg_total l1 = seg_total l2.
Proof.
  induction 1 as [|x l1 l2 _ IH|x y l|l1 l2 l3 _ IH1 _ IH2].
  - done.
  - change (seg_total (x :: l1)) with (x.2 - x.1 + 1 + seg_total l1).
    change (seg_total (x :: l2)) with (x.2 - x.1 + 1 + seg_total l2). lia.
  - change (seg_total (y :: x :: l))
      with (y.2 - y.1 + 1 + (x.2 - x.1 + 1 + seg_total l)).
    change (seg_total (x :: y :: l))
      with (x.2 - x.1 + 1 + (y.2 - y.1 + 1 + seg_total l)). lia.
  - lia.
Qed.

Lemma seg_total_app (l1 l2 : list segment) :
  seg_total (l1 ++ l2) = seg_total l1 + seg_total l2.
Proof.
  induction l1 as [|seg l1 IH]; [done|].
  change (seg_total ((seg :: l1) ++ l2))
    with (seg.2 - seg.1 + 1 + seg_total (l1 ++ l2)).
  change (seg_total (seg :: l1)) with (seg.2 - seg.1 + 1 + seg_total l1). lia.
Qed.

Lemma enumerate_segments (ranges : list segment) :
  (enumerate ranges).*2 = ranges.
Proof.
  unfold enumerate.
  assert (∀ n, (imap (fun i r => (Z.of_nat (n + i), r)) ranges).*2 = ranges)
    as H; [|apply (H 0%nat)].
  induction ranges as [|seg l IH]; intros n; simpl; [done|].
  f_equal. rewrite <- (IH (S n)) at 2. f_equal.
  apply imap_ext. intros i x _. simpl. do 2 f_equal. lia.
Qed.

(** The bytes accounted for on resume are those of the segments listed. *)
Lemma already_done_total (ranges : list segment) (D : gset Z) :
  (∀ i, i ∈ D -> 0 <= i < py_len ranges) ->
  already_done ranges D
  = Some (seg_total (filter (fun t => t.1 ∈ D) (enumerate ranges)).*2).
Proof.
  intros Hvalid.
  assert (elements D ≡ₚ (filter (fun t => t.1 ∈ D) (enumerate ranges)).*1)
    as Hperm.
  { assert ((filter (fun t : Z * segment => t.1 ∈ D) (enumerate ranges)).*1
            = filter (fun i => i ∈ D) (enumerate ranges).*1) as ->
      by exact (fmap_fst_filter (fun i => i ∈ D) (enumerate ranges)).
    apply NoDup_Permutation.
    - apply NoDup_elements.
    - apply NoDup_filter, NoDup_enumerate_indices.
    - intros i. rewrite elem_of_elements, list_elem_of_filter.
      rewrite enumerate_indices, list_elem_of_fmap. split.
      + intros Hi. split; [done|]. exists (Z.to_nat i).
        specialize (Hvalid i Hi). unfold py_len in Hvalid.
        split; [lia|]. apply elem_of_seq. lia.
      + by intros [Hi _]. }
  unfold already_done.
  set (step := fun (i : Z) (acc : option Z) =>
                 match acc, py_index ranges i with
                 | Some already, Some (s, e) => Some (already + (e - s + 1))
                 | _, _ => None
                 end).
  set (len_at := fun i : Z =>
                   from_option (fun seg : segment => seg.2 - seg.1 + 1) 0
                               (ranges !! Z.to_nat i)).
  assert (∀ l, Forall (fun i => 0 <= i < py_len ranges) l ->
               foldr step (Some 0) l = Some (foldr (fun i acc => len_at i + acc) 0 l))
    as Hfold.
  { induction 1 as [|i l Hi _ IH]; simpl; [done|].
    rewrite IH. unfold step, len_at, py_index.
    rewrite decide_True by lia.
    destruct (lookup_lt_is_Some_2 ranges (Z.to_nat i)) as [[s e] Hl];
      [unfold py_len in Hi; lia|].
    rewrite !Hl. simpl. f_equal. lia. }
  rewrite Hfold by (apply Forall_forall; intros i Hi; apply Hvalid;
                    by apply elem_of_elements).
  f_equal.
  transitivity (foldr (fun i acc => len_at i + acc) 0
                  (filter (fun t => t.1 ∈ D) (enumerate ranges)).*1).
  { clear Hfold. induction Hperm; simpl; lia. }
  assert (∀ l : list (Z * segment), l ⊆ enumerate ranges ->
            foldr (fun i acc => len_at i + acc) 0 l.*1 = seg_total l.*2) as Hl.
  { induction l as [|[i [s e]] l IH]; intros Hsub; [done|].
    rewrite !fmap_cons. cbn [fst snd].
    change (seg_total ((s, e) :: l.*2)) with (e - s + 1 + seg_total l.*2).
    rewrite <- IH by (intros t Ht; apply Hsub; by apply list_elem_of_further).
    assert ((i, (s, e)) ∈ enumerate ranges) as Hin
      by (apply Hsub, list_elem_of_here).
    apply elem_of_enumerate in Hin as [_ Hlk].
    cbn [foldr]. unfold len_at at 1. by rewrite Hlk. }
  apply Hl. intros t Ht. by apply list_elem_of_filter in Ht as [_ Ht].
Qed.

Section honest_progress.
Variable resource : bytes.
Variable fuel : nat.
Variable srv : Z -> server.
Variable url : string.
Variables chunk_size max_retries : Z.
Variable v : validators.
Hypothesis Hsrv : ∀ i, honest resource (srv i).
Hypothesis Hfuel : (Z.to_nat (py_len resource) <= fuel)%nat.

Lemma run_workers_counts (tasks : list (Z * segment)) (st : dstate) :
  Forall (valid_task resource) tasks ->
  length (d_file st) = length resource ->
  ∃ st',
    run_workers fuel srv url (py_len resource) chunk_size max_retries v
                tasks st = (Returned, st')
    ∧ d_done st' = d_done st + seg_total tasks.*2.
Proof.
  intros Hvalid. revert st.
  induction Hvalid as [|[i [s e]] tasks Ht _ IH]; intros st Hlen.
  - exists st. simpl. split; [done|]. unfold seg_total. simpl. lia.
  - destruct Ht as [Hs He]. simpl in Hs, He.
    destruct (honest_fetch_range resource (srv i) s e max_retries
                (d_file st) (d_done st) (Hsrv i) (proj1 Hs) He Hlen fuel)
      as (fst' & Hfetch & Hlen' & _ & Hdone); [lia|lia|].
    simpl. unfold worker. rewrite Hfetch.
    destruct (IH (save_meta
                    (mark_done url (py_len resource) chunk_size v i
                       (load_meta (DState (st_file fst') (d_meta st)
                                          (st_done fst'))))
                    (DState (st_file fst') (d_meta st) (st_done fst'))))
      as (st' & Hrun & Hd); [done|].
    exists st'. split; [done|]. simpl in Hd. rewrite Hd, Hdone.
    change (seg_total ((s, e) :: tasks.*2))
      with (e - s + 1 + seg_total tasks.*2).
    unfold fmap. lia.
Qed.
End honest_progress.


